(** * The WebSocket gateway of server/index.ts

    A shallow embedding of the connection handlers (heartbeat, close, error,
    message) and of the graceful-shutdown handler of [server/index.ts],
    together with the properties of the design document that concern them.

    Layout:
    - [Js]: JavaScript strings, the JSON text grammar read by [JSON.parse],
      and [JSON.stringify] on the flat records the server sends;
    - [Conn]: one connection, its handlers as written in the
      [wss.on('connection', ...)] callback;
    - [Heartbeat]: one connection on a clock, with the [setInterval] timer;
    - [Proc]: the process, with [shutdown], the signal handlers, the global
      error handlers and the [setTimeout] safety valve. *)

From stdpp Require Import base option list numbers.
From Stdlib Require Import ZArith NArith Lia Ascii String.

Open Scope N_scope.

(* ===================================================================== *)
(** ** JavaScript strings and JSON *)
(* ===================================================================== *)

Module Js.

(** A JavaScript string is a sequence of UTF-16 code units. *)
Definition jsstring := list N.

(** A literal of the source, written with ASCII characters. *)
Definition lit (s : string) : jsstring := N_of_ascii <$> list_ascii_of_string s.

Fixpoint str_eqb (a b : jsstring) : bool :=
  match a, b with
  | [], [] => true
  | x :: a', y :: b' => (x =? y) && str_eqb a' b'
  | _, _ => false
  end.

(** What a [throw] carries; only the kind of error matters to the handlers. *)
Inductive js_error := SyntaxError | TypeError.

Inductive result (A : Type) :=
| Ok (a : A)
| Throw (e : js_error).
Arguments Ok {A} a.
Arguments Throw {A} e.

(** A handler body over a state [S] that makes calls of type [E]: it reads and
    writes the state, makes calls, and returns or throws.  The state and the
    calls made before a [throw] stay. *)
Definition M (S E A : Type) : Type := S -> result A * S * list E.

#[export] Instance M_ret {S E} : MRet (M S E) := fun A a c => (Ok a, c, []).

#[export] Instance M_bind {S E} : MBind (M S E) := fun A B f m c =>
  match m c with
  | (Ok a, c', w) => let '(r, c'', w') := f a c' in (r, c'', w ++ w')
  | (Throw e, c', w) => (Throw e, c', w)
  end.

Definition lift {S E A} (r : result A) : M S E A := fun c => (r, c, []).

Definition emit {S E} (e : E) : M S E unit := fun c => (Ok tt, c, [e]).

(** [try { body } catch (error) { handler }] *)
Definition try_catch {S E A} (body : M S E A) (handler : js_error -> M S E A)
  : M S E A :=
  fun c =>
    match body c with
    | (Ok a, c', w) => (Ok a, c', w)
    | (Throw e, c', w) => let '(r, c'', w') := handler e c' in (r, c'', w ++ w')
    end.

Definition outcome_of {S E A} (r : result A * S * list E) : result A := fst (fst r).
Definition state_of {S E A} (r : result A * S * list E) : S := snd (fst r).
Definition effects_of {S E A} (r : result A * S * list E) : list E := snd r.

(** The values [JSON.parse] produces.  A number keeps its literal: the
    handlers never compute with one.  An object keeps its members in source
    order, duplicates included; a read takes the last one, as [JSON.parse]
    lets a later member overwrite an earlier one. *)
#[warnings="-register-all"]
Inductive json :=
| JNull
| JBool (b : bool)
| JNumber (literal : jsstring)
| JString (s : jsstring)
| JArray (elements : list json)
| JObject (members : list (jsstring * json)).

(** *** The JSON grammar (ECMA-404), as [JSON.parse] reads it *)

Definition is_ws (c : N) : bool :=
  (c =? 32) || (c =? 9) || (c =? 10) || (c =? 13).

Fixpoint skip_ws (s : jsstring) : jsstring :=
  match s with
  | c :: r => if is_ws c then skip_ws r else s
  | [] => []
  end.

Definition is_digit (c : N) : bool := (48 <=? c) && (c <=? 57).

Definition hex_val (c : N) : option N :=
  if is_digit c then Some (c - 48)
  else if (65 <=? c) && (c <=? 70) then Some (c - 55)
  else if (97 <=? c) && (c <=? 102) then Some (c - 87)
  else None.

(** The character an escape stands for: quote, backslash, slash, then the
    letters b, f, n, r, t (the escape with letter u is handled apart). *)
Definition unescape (e : N) : option N :=
  if e =? 34 then Some 34
  else if e =? 92 then Some 92
  else if e =? 47 then Some 47
  else if e =? 98 then Some 8
  else if e =? 102 then Some 12
  else if e =? 110 then Some 10
  else if e =? 114 then Some 13
  else if e =? 116 then Some 9
  else None.

(** The characters of a string after its opening quote, up to and including
    the closing quote.  Returns the decoded string and the rest of the text. *)
Fixpoint parse_chars (s : jsstring) : option (jsstring * jsstring) :=
  match s with
  | [] => None
  | c :: r =>
      if c =? 34 then Some ([], r)
      else if c =? 92 then
        match r with
        | [] => None
        | e :: r' =>
            if e =? 117 then
              match r' with
              | h1 :: h2 :: h3 :: h4 :: r'' =>
                  a ← hex_val h1; b ← hex_val h2; c ← hex_val h3; d ← hex_val h4;
                  '(str, rest) ← parse_chars r'';
                  Some ((4096 * a + 256 * b + 16 * c + d) :: str, rest)
              | _ => None
              end
            else
              u ← unescape e;
              '(str, rest) ← parse_chars r';
              Some (u :: str, rest)
        end
      else if c <? 32 then None
      else '(str, rest) ← parse_chars r; Some (c :: str, rest)
  end.

Fixpoint span_digits (s : jsstring) : jsstring * jsstring :=
  match s with
  | c :: r =>
      if is_digit c then let '(ds, rest) := span_digits r in (c :: ds, rest)
      else ([], s)
  | [] => ([], [])
  end.

(** One or more digits. *)
Definition parse_digits1 (s : jsstring) : option (jsstring * jsstring) :=
  match span_digits s with
  | ([], _) => None
  | (ds, rest) => Some (ds, rest)
  end.

(** A number: an optional minus sign; then a single zero, or a digit from 1
    to 9 followed by any digits; then optionally a dot and one or more digits;
    then optionally e or E, an optional sign and one or more digits. *)
Definition parse_number (s : jsstring) : option (jsstring * jsstring) :=
  let '(sign, s1) :=
    match s with
    | c :: r => if c =? 45 then ([45], r) else ([], s)
    | [] => ([], s)
    end in
  '(int, s2) ←
    match s1 with
    | c :: r =>
        if c =? 48 then Some ([48], r)
        else if is_digit c then
          let '(ds, rest) := span_digits r in Some (c :: ds, rest)
        else None
    | [] => None
    end;
  '(frac, s3) ←
    match s2 with
    | c :: r =>
        if c =? 46 then '(ds, rest) ← parse_digits1 r; Some (46 :: ds, rest)
        else Some ([], s2)
    | [] => Some ([], s2)
    end;
  '(exp, s4) ←
    match s3 with
    | c :: r =>
        if (c =? 101) || (c =? 69) then
          let '(esign, r') :=
            match r with
            | c' :: r1 =>
                if (c' =? 43) || (c' =? 45) then ([c'], r1) else ([], r)
            | [] => ([], r)
            end in
          '(ds, rest) ← parse_digits1 r'; Some (c :: esign ++ ds, rest)
        else Some ([], s3)
    | [] => Some ([], s3)
    end;
  Some (sign ++ int ++ frac ++ exp, s4).

(** [strip_prefix p s] is the rest of [s] after the literal [p]. *)
Fixpoint strip_prefix (p s : jsstring) : option jsstring :=
  match p, s with
  | [], _ => Some s
  | x :: p', y :: s' => if x =? y then strip_prefix p' s' else None
  | _ :: _, [] => None
  end.

(** A value, with the white space before it; the members of an object after
    its opening brace; the elements of an array after its opening bracket.
    [fuel] bounds the nesting of the calls. *)
Fixpoint parse_value (fuel : nat) (s : jsstring) : option (json * jsstring) :=
  match fuel with
  | O => None
  | S fuel =>
      match skip_ws s with
      | [] => None
      | c :: r =>
          if c =? 123 then
            match skip_ws r with
            | c' :: r' =>
                if c' =? 125 then Some (JObject [], r')
                else '(ms, rest) ← parse_members fuel r; Some (JObject ms, rest)
            | [] => None
            end
          else if c =? 91 then
            match skip_ws r with
            | c' :: r' =>
                if c' =? 93 then Some (JArray [], r')
                else '(es, rest) ← parse_elements fuel r; Some (JArray es, rest)
            | [] => None
            end
          else if c =? 34 then
            '(str, rest) ← parse_chars r; Some (JString str, rest)
          else if c =? 116 then
            rest ← strip_prefix (lit "rue") r; Some (JBool true, rest)
          else if c =? 102 then
            rest ← strip_prefix (lit "alse") r; Some (JBool false, rest)
          else if c =? 110 then
            rest ← strip_prefix (lit "ull") r; Some (JNull, rest)
          else
            '(num, rest) ← parse_number (c :: r); Some (JNumber num, rest)
      end
  end
with parse_members (fuel : nat) (s : jsstring)
  : option (list (jsstring * json) * jsstring) :=
  match fuel with
  | O => None
  | S fuel =>
      match skip_ws s with
      | [] => None
      | q :: r =>
          if q =? 34 then
            '(key, r1) ← parse_chars r;
            match skip_ws r1 with
            | [] => None
            | colon :: r2 =>
                if colon =? 58 then
                  '(v, r3) ← parse_value fuel r2;
                  match skip_ws r3 with
                  | [] => None
                  | sep :: r4 =>
                      if sep =? 44 then
                        '(ms, r5) ← parse_members fuel r4;
                        Some ((key, v) :: ms, r5)
                      else if sep =? 125 then Some ([(key, v)], r4)
                      else None
                  end
                else None
            end
          else None
      end
  end
with parse_elements (fuel : nat) (s : jsstring)
  : option (list json * jsstring) :=
  match fuel with
  | O => None
  | S fuel =>
      '(v, r1) ← parse_value fuel s;
      match skip_ws r1 with
      | [] => None
      | sep :: r2 =>
          if sep =? 44 then
            '(es, r3) ← parse_elements fuel r2; Some (v :: es, r3)
          else if sep =? 93 then Some ([v], r2)
          else None
      end
  end.

(** [JSON.parse(text)]: one value, white space around it, nothing else;
    anything else is a [SyntaxError]. *)
Definition JSON_parse (text : jsstring) : result json :=
  match parse_value (2 * List.length text + 2) text with
  | Some (v, rest) =>
      match skip_ws rest with
      | [] => Ok v
      | _ :: _ => Throw SyntaxError
      end
  | None => Throw SyntaxError
  end.

(** *** [JSON.stringify] on a record of strings *)

Definition hex_digit (d : N) : N := if d <? 10 then 48 + d else 87 + d.

(** The escape of a code unit as a backslash, the letter u and four
    lower-case hexadecimal digits. *)
Definition escape_u (c : N) : jsstring :=
  [92; 117; hex_digit (c / 4096 mod 16); hex_digit (c / 256 mod 16);
   hex_digit (c / 16 mod 16); hex_digit (c mod 16)].

Definition is_high_surrogate (c : N) : bool := (55296 <=? c) && (c <=? 56319).
Definition is_low_surrogate (c : N) : bool := (56320 <=? c) && (c <=? 57343).

(** The body of a quoted string: the quote, the backslash and the control
    characters are escaped, as is a surrogate that has no partner. *)
Fixpoint quote_chars (s : jsstring) : jsstring :=
  match s with
  | [] => []
  | c :: r =>
      if c =? 8 then 92 :: 98 :: quote_chars r
      else if c =? 9 then 92 :: 116 :: quote_chars r
      else if c =? 10 then 92 :: 110 :: quote_chars r
      else if c =? 12 then 92 :: 102 :: quote_chars r
      else if c =? 13 then 92 :: 114 :: quote_chars r
      else if c =? 34 then 92 :: 34 :: quote_chars r
      else if c =? 92 then 92 :: 92 :: quote_chars r
      else if c <? 32 then escape_u c ++ quote_chars r
      else if is_high_surrogate c then
        match r with
        | d :: r' =>
            if is_low_surrogate d then c :: d :: quote_chars r'
            else escape_u c ++ quote_chars r
        | [] => escape_u c
        end
      else if is_low_surrogate c then escape_u c ++ quote_chars r
      else c :: quote_chars r
  end.

Definition quote (s : jsstring) : jsstring := 34 :: quote_chars s ++ [34].

Fixpoint stringify_members (ms : list (jsstring * jsstring)) : jsstring :=
  match ms with
  | [] => []
  | [(k, v)] => quote k ++ 58 :: quote v
  | (k, v) :: ms' => quote k ++ 58 :: quote v ++ 44 :: stringify_members ms'
  end.

(** [JSON.stringify(o)] for an object literal [o] whose properties are all
    strings, given in property order; the server serialises nothing else. *)
Definition JSON_stringify (o : list (jsstring * jsstring)) : jsstring :=
  123 :: stringify_members o ++ [125].

(** *** Reading [data.type] *)

Fixpoint last_member (key : jsstring) (ms : list (jsstring * json))
  : option json :=
  match ms with
  | [] => None
  | (k, v) :: ms' =>
      match last_member key ms' with
      | Some v' => Some v'
      | None => if str_eqb k key then Some v else None
      end
  end.

(** The member access [data.type] on a parsed value; [None] is [undefined].
    Reading a property of [null] throws a [TypeError]; a boolean, a number,
    a string or an array has no property of that name; an object yields its
    own property when it has one. *)
Definition get_type (data : json) : result (option json) :=
  match data with
  | JNull => Throw TypeError
  | JBool _ | JNumber _ | JString _ | JArray _ => Ok None
  | JObject ms => Ok (last_member (lit "type") ms)
  end.

(** [v === s] for a string literal [s]. *)
Definition strict_eq_string (v : option json) (s : jsstring) : bool :=
  match v with
  | Some (JString t) => str_eqb t s
  | _ => false
  end.

End Js.

(* ===================================================================== *)
(** ** One connection *)
(* ===================================================================== *)

Module Conn.
Import Js.

(** The [readyState] of a socket of the ws library, once it is handed to the
    connection callback. *)
Inductive ReadyState := OPEN | CLOSING | CLOSED.

(** The state a connection's handlers share: the [isAlive] property set on
    the socket, whether the [heartbeat] interval is still armed, and the
    socket's state. *)
Record conn := mkConn {
  isAlive : bool;
  heartbeat : bool;
  readyState : ReadyState
}.

(** The calls the handlers make on the socket, the timer and the console. *)
Inductive effect :=
| ConsoleLog (text : string)
| ConsoleError (text : string)
| ClearInterval
| Terminate
| Ping
| Send (data : jsstring).

Abbreviation M := (Js.M conn effect).

Definition get_isAlive : M bool := fun c => (Ok (isAlive c), c, []).

Definition set_isAlive (b : bool) : M unit := fun c =>
  (Ok tt, mkConn b (heartbeat c) (readyState c), []).

Definition console_log (text : string) : M unit := emit (ConsoleLog text).
Definition console_error (text : string) : M unit := emit (ConsoleError text).

(** [clearInterval(heartbeat)]: the interval is disarmed; on an interval that
    is already cleared the call does nothing. *)
Definition clearInterval_heartbeat : M unit := fun c =>
  (Ok tt, mkConn (isAlive c) false (readyState c), [ClearInterval]).

(** [ws.terminate()]: the socket is destroyed without a closing handshake; a
    socket that is already closed is left alone. *)
Definition ws_terminate : M unit := fun c =>
  (Ok tt,
   mkConn (isAlive c) (heartbeat c)
     (match readyState c with CLOSED => CLOSED | _ => CLOSING end),
   [Terminate]).

Definition ws_ping : M unit := emit Ping.
Definition ws_send (data : jsstring) : M unit := emit (Send data).

(** *** The handlers of [wss.on('connection', ...)] *)

(** The socket as the library hands it over: open, no [isAlive] property
    yet (read as falsy), no interval yet. *)
Definition fresh : conn := mkConn false false OPEN.

(** [heartbeat = setInterval(..., 30000)]: the interval is armed. *)
Definition setInterval_heartbeat : M unit := fun c =>
  (Ok tt, mkConn (isAlive c) true (readyState c), []).

(** The body of the connection callback, up to the registration of the
    handlers below. *)
Definition on_connection : M unit :=
  console_log "New WebSocket connection established";;
  set_isAlive true;;
  setInterval_heartbeat.

(** [ws.on('pong', () => { ws.isAlive = true; })] *)
Definition on_pong : M unit := set_isAlive true.

(** The callback of the [heartbeat] interval. *)
Definition heartbeat_tick : M unit :=
  alive ← get_isAlive;
  if negb alive then
    clearInterval_heartbeat;;
    ws_terminate
  else
    set_isAlive false;;
    ws_ping.

Definition on_close : M unit :=
  console_log "WebSocket connection closed";;
  clearInterval_heartbeat.

Definition on_error : M unit :=
  console_error "WebSocket error:";;
  clearInterval_heartbeat.

Definition ack_frame : jsstring :=
  JSON_stringify [(lit "type", lit "ack")].

Definition error_frame : jsstring :=
  JSON_stringify [(lit "type", lit "error");
                  (lit "message", lit "Invalid message format")].

(** [ws.on('message', ...)]; [message] is the text [message.toString()]
    yields. *)
Definition on_message (message : jsstring) : M unit :=
  try_catch
    (data ← lift (JSON_parse message);
     ty ← lift (get_type data);
     if strict_eq_string ty (lit "pong") then ws_send ack_frame
     else mret tt)
    (fun error =>
       console_error "WebSocket message error:";;
       ws_send error_frame).

(** *** Events *)

(** What the library and the timer deliver to a connection. *)
Inductive event :=
| EPong
| ETick
| EClose
| EError
| EMessage (message : jsstring).

Definition get_heartbeat : M bool := fun c => (Ok (heartbeat c), c, []).
Definition get_readyState : M ReadyState := fun c => (Ok (readyState c), c, []).
Definition set_readyState (s : ReadyState) : M unit := fun c =>
  (Ok tt, mkConn (isAlive c) (heartbeat c) s, []).

(** The delivery of one event.  A cleared interval does not fire.  The
    library marks the socket closed before it emits [close], and closing
    before it emits [error]. *)
Definition deliver (e : event) : M unit :=
  match e with
  | EPong => on_pong
  | ETick =>
      armed ← get_heartbeat;
      if armed : bool then heartbeat_tick else mret tt
  | EClose => set_readyState CLOSED;; on_close
  | EError =>
      s ← get_readyState;
      set_readyState (match s with OPEN => CLOSING | _ => s end);;
      on_error
  | EMessage message => on_message message
  end.

Definition step (e : event) (c : conn) : conn := state_of (deliver e c).

(** A connection from its creation through a sequence of events: the final
    state and all the calls made, in order. *)
Fixpoint run_from (c : conn) (tr : list event) : conn * list effect :=
  match tr with
  | [] => (c, [])
  | e :: tr' =>
      let r := deliver e c in
      let '(c', w) := run_from (state_of r) tr' in
      (c', effects_of r ++ w)
  end.

Definition connected : conn := state_of (on_connection fresh).


(** The frames a list of calls sends. *)
Definition sent (w : list effect) : list jsstring :=
  omap (fun e => match e with Send d => Some d | _ => None end) w.

Definition is_effect (e : effect) (x : effect) : bool :=
  match e, x with
  | ClearInterval, ClearInterval | Terminate, Terminate | Ping, Ping => true
  | _, _ => false
  end.

Definition count (e : effect) (w : list effect) : nat :=
  List.length (List.filter (is_effect e) w).



(** *** Payloads *)

(** The text of a frame whose [type] is the string pong, and three payloads
    that are JSON but no record with a [type]. *)
Definition pong_text : jsstring := JSON_stringify [(lit "type", lit "pong")].
Definition five_text : jsstring := lit "5".
Definition null_text : jsstring := lit "null".
Definition empty_object_text : jsstring := lit "{}".

(** A payload is malformed, in the words of the design document, when it is
    no JSON text or when it is JSON but no record with a [type] member. *)
Definition is_record_with_type (data : json) : bool :=
  match data with
  | JObject ms =>
      match last_member (lit "type") ms with Some _ => true | None => false end
  | _ => false
  end.

Definition malformed (message : jsstring) : Prop :=
  match JSON_parse message with
  | Throw _ => True
  | Ok data => is_record_with_type data = false
  end.

End Conn.

(* ===================================================================== *)
(** ** One connection on a clock *)
(* ===================================================================== *)

Module Heartbeat.
Import Js Conn.
Open Scope Z_scope.

(** The delay given to [setInterval], in milliseconds. *)
Definition period : Z := 30000.

(** A connection with the clock of its heartbeat.  Times are milliseconds
    since the connection callback ran; [next_tick] is when the interval is
    due next; [log] holds the calls made, each with the time of the call. *)
Record world := mkWorld {
  sock : conn;
  now : Z;
  next_tick : Z;
  log : list (Z * effect)
}.

(** The connection callback runs at time 0 and arms the interval. *)
Definition start : world :=
  let r := on_connection fresh in
  mkWorld (state_of r) 0 period (pair 0 <$> effects_of r).

(** What reaches a connection from outside: the peer's pong, the close and
    the error of the transport, an inbound message.  The runs of the interval
    come from the clock, not from outside. *)
Inductive arrival :=
| Pong
| Close
| Error
| Message (message : jsstring).

Definition event_of (a : arrival) : event :=
  match a with
  | Pong => EPong
  | Close => EClose
  | Error => EError
  | Message message => EMessage message
  end.

(** An event is delivered at the current time. *)
Definition deliver_now (e : event) (w : world) : world :=
  let r := deliver e (sock w) in
  mkWorld (state_of r) (now w) (next_tick w)
    (log w ++ (pair (now w) <$> effects_of r)).

(** The interval comes due: the clock is at [next_tick], the callback runs
    (unless the interval was cleared), the next run is one period later. *)
Definition fire (w : world) : world :=
  let w' := deliver_now ETick (mkWorld (sock w) (next_tick w) (next_tick w) (log w)) in
  mkWorld (sock w') (now w') (next_tick w + period) (log w').

(** How many runs of the interval are due up to time [t]. *)
Definition ticks_due (t : Z) (w : world) : nat :=
  if next_tick w <=? t then S (Z.to_nat ((t - next_tick w) / period)) else O.

(** The clock reaches [t] with no run of the interval left to do. *)
Definition settle (t : Z) (w : world) : world :=
  mkWorld (sock w) (Z.max (now w) t) (next_tick w) (log w).

(** Time passes until [t]: every run of the interval due by then happens, in
    order. *)
Definition advance (t : Z) (w : world) : world :=
  settle t (Nat.iter (ticks_due t w) fire w).

(** Something arrives at time [t]; the runs of the interval that are due by
    [t] come first. *)
Definition handle (ta : Z * arrival) (w : world) : world :=
  deliver_now (event_of (snd ta)) (advance (fst ta) w).

Definition run_timed (tr : list (Z * arrival)) (w : world) : world :=
  fold_left (fun w ta => handle ta w) tr w.

(** The connection at time [T], after the timed arrivals [tr]. *)
Definition observe (T : Z) (tr : list (Z * arrival)) : world :=
  advance T (run_timed tr start).

(** The times at which the supervisor called [ws.terminate()]. *)
Definition terminations (l : list (Z * effect)) : list Z :=
  omap (fun te => match snd te with Terminate => Some (fst te) | _ => None end) l.

(** The arrivals carry times that do not go back, starting from [from]. *)
Fixpoint chronological (from : Z) (tr : list (Z * arrival)) : bool :=
  match tr with
  | [] => true
  | (t, _) :: tr' => (from <=? t) && chronological t tr'
  end.

(** The peer answers every probe within one period, as far as time [T]: for
    each run [k] of the interval whose successor falls before [T], a pong
    arrives after run [k] and before run [k + 1]. *)
Definition answers_every_probe (tr : list (Z * arrival)) (T : Z) : Prop :=
  forall k, 1 <= k -> period * (k + 1) <= T ->
    exists t, In (t, Pong) tr /\ period * k <= t < period * (k + 1).

(** Nothing but application messages: no pong, no close, no error. *)
Definition silent (tr : list (Z * arrival)) : bool :=
  forallb (fun ta => match snd ta with Message _ => true | _ => false end) tr.

(** The clock and the interval are in step: the next run is due after now
    and within one period, and an armed interval has terminated nothing. *)
Definition in_step (w : world) : Prop :=
  now w < next_tick w <= now w + period /\
  (heartbeat (sock w) = true -> terminations (log w) = []).

(** What holds of a peer that has answered so far, [done] being the arrivals
    already handled: the runs of the interval fall on the multiples of the
    period; whenever a probe is out (armed, flag false) it was sent one
    period before the next run and no pong has come since; nothing was
    terminated. *)
Definition answered_so_far (done : list (Z * arrival)) (w : world) : Prop :=
  now w < next_tick w /\
  (exists k, 1 <= k /\ next_tick w = period * k) /\
  (forall t a, In (t, a) done -> t <= now w) /\
  (heartbeat (sock w) = true -> isAlive (sock w) = false ->
   2 * period <= next_tick w /\
   forall t, In (t, Pong) done -> t < next_tick w - period) /\
  terminations (log w) = [].

End Heartbeat.

(* ===================================================================== *)
(** ** The process: shutdown and the global handlers *)
(* ===================================================================== *)

Module Proc.
Import Js.
Open Scope Z_scope.

Inductive signal := SIGTERM | SIGINT.

(** The closures the source hands to the libraries and to the timer. *)
Inductive callback :=
| OnWssClosed       (* the callback given to [wss.close] *)
| OnServerClosed    (* the callback given to [server.close] *)
| OnForceTimeout.   (* the callback given to [setTimeout] *)

(** The calls the process-level code makes, and the calls its connections
    make. *)
Inductive action :=
| Console (text : string)
| ConsoleErr (text : string)
| WssClose
| ServerClose
| SetTimeout (ms : Z)
| Exit (code : Z)
| OnClient (i : nat) (call : Conn.effect).

(** The process.  [accepting]: the WebSocket server still takes upgrades;
    [clients]: the sockets the WebSocket server tracks; [wss_listeners] and
    [server_listeners]: the callbacks waiting for the close of the WebSocket
    server and of the HTTP server; [timers]: the pending timeouts with their
    due times; [exited]: the exit code once [process.exit] ran; [trace]: the
    calls made, each with its time. *)
Record proc := mkProc {
  now : Z;
  accepting : bool;
  clients : list Conn.conn;
  wss_listeners : list callback;
  server_listeners : list callback;
  timers : list (Z * callback);
  exited : option Z;
  trace : list (Z * action)
}.

Abbreviation M := (Js.M proc action).

Definition console_log (text : string) : M unit := emit (Console text).
Definition console_error (text : string) : M unit := emit (ConsoleErr text).

(** [wss.close(cb)] of the ws library (version 8): the server stops taking
    upgrades and [cb] runs once the server has emitted [close].  The call
    leaves the open sockets alone.  The library emits [close] when the last
    tracked socket has closed, and on the next tick of the event loop when
    no socket is tracked at the call; here the emission is the event
    [WssClosed] of a run, so that a run in which a signal is followed by
    something else than [WssClosed] stands for a process with a socket open
    at the signal. *)
Definition wss_close (cb : callback) : M unit := fun p =>
  (Ok tt,
   mkProc (now p) false (clients p) (wss_listeners p ++ [cb])
     (server_listeners p) (timers p) (exited p) (trace p),
   [WssClose]).

(** [server.close(cb)] of Node's http server: [cb] runs once the server has
    emitted [close]. *)
Definition server_close (cb : callback) : M unit := fun p =>
  (Ok tt,
   mkProc (now p) (accepting p) (clients p) (wss_listeners p)
     (server_listeners p ++ [cb]) (timers p) (exited p) (trace p),
   [ServerClose]).

(** [setTimeout(cb, ms)] *)
Definition setTimeout (cb : callback) (ms : Z) : M unit := fun p =>
  (Ok tt,
   mkProc (now p) (accepting p) (clients p) (wss_listeners p)
     (server_listeners p) (timers p ++ [(now p + ms, cb)]) (exited p) (trace p),
   [SetTimeout ms]).

(** [process.exit(code)] *)
Definition process_exit (code : Z) : M unit := fun p =>
  (Ok tt,
   mkProc (now p) (accepting p) (clients p) (wss_listeners p)
     (server_listeners p) (timers p) (Some code) (trace p),
   [Exit code]).

(** *** The source *)

Definition on_server_closed : M unit :=
  console_log "HTTP server closed";;
  process_exit 0.

Definition on_wss_closed : M unit :=
  console_log "WebSocket server closed";;
  server_close OnServerClosed.

Definition on_force_timeout : M unit :=
  console_error "Could not close connections in time, forcefully shutting down";;
  process_exit 1.

(** [const shutdown = async () => { ... }] *)
Definition shutdown : M unit :=
  console_log "Shutting down gracefully...";;
  wss_close OnWssClosed;;
  setTimeout OnForceTimeout 10000.

(** [process.on('SIGTERM', shutdown)] and [process.on('SIGINT', shutdown)] *)
Definition on_signal (s : signal) : M unit := shutdown.

(** [shutdown().catch(() => process.exit(1))] after the log line. *)
Definition on_uncaughtException : M unit :=
  console_error "Uncaught Exception:";;
  try_catch shutdown (fun _ => process_exit 1).

Definition on_unhandledRejection : M unit :=
  console_error "Unhandled Rejection at:".

Definition call (cb : callback) : M unit :=
  match cb with
  | OnWssClosed => on_wss_closed
  | OnServerClosed => on_server_closed
  | OnForceTimeout => on_force_timeout
  end.

(** *** The event loop *)

Inductive event :=
| Signal (s : signal)
| UncaughtException
| UnhandledRejection
| WssClosed                       (* the WebSocket server emits [close] *)
| ServerClosed                    (* the HTTP server emits [close] *)
| Upgrade                         (* the WebSocket server emits [connection] *)
| Client (i : nat) (e : Conn.event).  (* an event of the [i]-th socket *)

Definition add_trace (w : list action) (p : proc) : proc :=
  mkProc (now p) (accepting p) (clients p) (wss_listeners p)
    (server_listeners p) (timers p) (exited p)
    (trace p ++ (pair (now p) <$> w)).

(** One callback runs, unless the process is gone. *)
Definition exec (m : M unit) (p : proc) : proc :=
  match exited p with
  | Some _ => p
  | None => let r := m p in add_trace (effects_of r) (state_of r)
  end.

Definition exec_all (cbs : list callback) (p : proc) : proc :=
  fold_left (fun p cb => exec (call cb) p) cbs p.

Definition set_clients (cs : list Conn.conn) (p : proc) : proc :=
  mkProc (now p) (accepting p) cs (wss_listeners p) (server_listeners p)
    (timers p) (exited p) (trace p).

(** The listeners registered with [once] are dropped when the event is
    emitted, then run in order. *)
Definition emit_wss_closed (p : proc) : proc :=
  exec_all (wss_listeners p)
    (mkProc (now p) (accepting p) (clients p) [] (server_listeners p)
       (timers p) (exited p) (trace p)).

Definition emit_server_closed (p : proc) : proc :=
  exec_all (server_listeners p)
    (mkProc (now p) (accepting p) (clients p) (wss_listeners p) []
       (timers p) (exited p) (trace p)).

(** The connection callback of the source, for a new socket.  A server that
    was closed takes no upgrade. *)
Definition emit_connection (p : proc) : proc :=
  if accepting p then
    let r := Conn.on_connection Conn.fresh in
    add_trace (OnClient (List.length (clients p)) <$> effects_of r)
      (set_clients (clients p ++ [state_of r]) p)
  else p.

Definition emit_client (i : nat) (e : Conn.event) (p : proc) : proc :=
  match clients p !! i with
  | Some c =>
      let r := Conn.deliver e c in
      add_trace (OnClient i <$> effects_of r)
        (set_clients (<[i := state_of r]> (clients p)) p)
  | None => p
  end.

Definition dispatch (e : event) (p : proc) : proc :=
  match exited p with
  | Some _ => p
  | None =>
      match e with
      | Signal s => exec (on_signal s) p
      | UncaughtException => exec on_uncaughtException p
      | UnhandledRejection => exec on_unhandledRejection p
      | WssClosed => emit_wss_closed p
      | ServerClosed => emit_server_closed p
      | Upgrade => emit_connection p
      | Client i e => emit_client i e p
      end
  end.

(** The pending timeout that is due first (the earlier registration wins a
    tie). *)
Fixpoint earliest (ts : list (Z * callback)) : option (Z * callback) :=
  match ts with
  | [] => None
  | (d, cb) :: ts' =>
      match earliest ts' with
      | Some (d', cb') => if d' <? d then Some (d', cb') else Some (d, cb)
      | None => Some (d, cb)
      end
  end.

Definition callback_eqb (a b : callback) : bool :=
  match a, b with
  | OnWssClosed, OnWssClosed | OnServerClosed, OnServerClosed
  | OnForceTimeout, OnForceTimeout => true
  | _, _ => false
  end.

Fixpoint remove_timer (d : Z) (cb : callback) (ts : list (Z * callback))
  : list (Z * callback) :=
  match ts with
  | [] => []
  | (d', cb') :: ts' =>
      if (d' =? d) && callback_eqb cb' cb then ts'
      else (d', cb') :: remove_timer d cb ts'
  end.

(** A timeout comes due at [d]: it leaves the pending ones, the clock is at
    [d], the callback runs. *)
Definition fire (d : Z) (cb : callback) (p : proc) : proc :=
  exec (call cb)
    (mkProc (Z.max (now p) d) (accepting p) (clients p) (wss_listeners p)
       (server_listeners p) (remove_timer d cb (timers p)) (exited p)
       (trace p)).

(** The timeouts due by [t] run, the earliest first, as long as the process
    lives.  [fuel] bounds the number of runs. *)
Fixpoint fire_due (fuel : nat) (t : Z) (p : proc) : proc :=
  match fuel with
  | O => p
  | S fuel =>
      match exited p with
      | Some _ => p
      | None =>
          match earliest (timers p) with
          | Some (d, cb) => if d <=? t then fire_due fuel t (fire d cb p) else p
          | None => p
          end
      end
  end.

(** Time passes until [t].  No callback of the source starts a timeout, so
    the number of pending timeouts bounds the number of runs.  The clock of
    a process that has exited stays at the time of the exit. *)
Definition advance (t : Z) (p : proc) : proc :=
  let p' := fire_due (List.length (timers p)) t p in
  match exited p' with
  | Some _ => p'
  | None =>
      mkProc (Z.max (now p') t) (accepting p') (clients p') (wss_listeners p')
        (server_listeners p') (timers p') (exited p') (trace p')
  end.

Definition handle (te : Z * event) (p : proc) : proc :=
  dispatch (snd te) (advance (fst te) p).

Definition run_timed (tr : list (Z * event)) (p : proc) : proc :=
  fold_left (fun p te => handle te p) tr p.

(** The process once [server.listen] and the [process.on] registrations are
    done: running, no socket, nothing pending. *)
Definition boot : proc := mkProc 0 true [] [] [] [] None [].

(** The process at time [T], after the timed events [tr]. *)
Definition observe (T : Z) (tr : list (Z * event)) : proc :=
  advance T (run_timed tr boot).

Fixpoint chronological (from : Z) (tr : list (Z * event)) : bool :=
  match tr with
  | [] => true
  | (t, _) :: tr' => (from <=? t) && chronological t tr'
  end.

Definition actions (p : proc) : list action := snd <$> trace p.

Definition is_wss_close (a : action) : bool :=
  match a with WssClose => true | _ => false end.
Definition is_set_timeout (a : action) : bool :=
  match a with SetTimeout _ => true | _ => false end.
Definition is_exit (a : action) : bool :=
  match a with Exit _ => true | _ => false end.

Definition count (f : action -> bool) (l : list action) : nat :=
  List.length (List.filter f l).

(** A fault or a signal that the source answers with [shutdown]. *)
Definition requests_shutdown (e : event) : bool :=
  match e with
  | Signal _ | UncaughtException => true
  | _ => false
  end.

(** The three calls [shutdown] makes, in the order it makes them. *)
Definition drain_entry : list action :=
  [Console "Shutting down gracefully..."; WssClose; SetTimeout 10000].

(** Two processes are in the same state of the drain: they agree on
    everything but what they have logged and called so far. *)
Definition same_drain (p q : proc) : Prop :=
  now p = now q /\ accepting p = accepting q /\ clients p = clients q /\
  wss_listeners p = wss_listeners q /\
  server_listeners p = server_listeners q /\
  timers p = timers q /\ exited p = exited q.

(** Every socket that was open in [p] has been told to close by [q]: it is
    no longer open there. *)
Definition closes_every_live_client (p q : proc) : Prop :=
  forall i c, clients p !! i = Some c -> Conn.readyState c = Conn.OPEN ->
    exists c', clients q !! i = Some c' /\ Conn.readyState c' <> Conn.OPEN.

(** What holds of every state the process reaches: the pending timeouts are
    the safety valve of [shutdown] and are due later than now; a process that
    lives has not called [process.exit], a process that exited called it
    once, at the time its clock stopped. *)
Definition sane (p : proc) : Prop :=
  (forall d cb, In (d, cb) (timers p) ->
     cb = OnForceTimeout /\ (exited p = None -> now p < d)) /\
  match exited p with
  | Some c => count is_exit (actions p) = 1%nat /\ In (now p, Exit c) (trace p)
  | None => count is_exit (actions p) = 0%nat
  end.






End Proc.

(* ===================================================================== *)
(** ** More of the JavaScript library *)
(* ===================================================================== *)

Module JsLib.
Import Js.

(** A string of the language: every element is a 16-bit code unit. *)
Definition code_units (s : jsstring) : Prop := Forall (fun c => c < 65536) s.

Definition strings_ok (o : list (jsstring * jsstring)) : Prop :=
  Forall (fun kv => code_units (fst kv) /\ code_units (snd kv)) o.

(** The value [JSON.parse] is expected to give back for a record of strings. *)
Definition as_json (o : list (jsstring * jsstring)) : json :=
  JObject ((fun kv => (fst kv, JString (snd kv))) <$> o).

(** [s.startsWith(p)] *)
Fixpoint startsWith (s p : jsstring) : bool :=
  match p, s with
  | [], _ => true
  | x :: p', y :: s' => (x =? y) && startsWith s' p'
  | _ :: _, [] => false
  end.

(** [s.includes(sub)]: [sub] occurs in [s] at some position. *)
Fixpoint includes (s sub : jsstring) : bool :=
  startsWith s sub ||
  match s with
  | [] => false
  | _ :: s' => includes s' sub
  end.

End JsLib.

(* ===================================================================== *)
(** ** The HTTP handlers of server/index.ts and of the middleware file *)
(* ===================================================================== *)

Module Express.
Import Js JsLib.
Open Scope Z_scope.

(** An [Error] as the handlers read it. *)
Record Error := mkError {
  name : jsstring;
  message : jsstring
}.

(** [process.env.NODE_ENV === 'production'] *)
Definition is_production (node_env : option jsstring) : bool :=
  match node_env with
  | Some v => str_eqb v (lit "production")
  | None => false
  end.

(** What a handler sees of the request and of the response it writes to:
    [req.path], and whether the headers of the response are sent already. *)
Record exchange := mkExchange {
  path : jsstring;
  headersSent : bool
}.

Inductive payload :=
| JsonBody (text : jsstring)      (* [res.json(o)]: the text of [o] *)
| TextBody (text : jsstring)      (* [res.send(text)] *)
| FileBody (file : string).       (* [res.sendFile(file, ...)] *)

Record response := mkResponse {
  status : Z;
  body : payload
}.

(** How a handler ends: it answers, it calls [next()], or it calls
    [next(err)]; a handler that throws is taken by the framework as one that
    calls [next] with what it threw. *)
Inductive outcome :=
| Respond (r : response)
| Next
| NextError (err : Error).

(** A line of [console.error]: the label and, where it is a string, the
    value logged after it. *)
Inductive line :=
| ErrorLine (label : string) (value : option jsstring).

(** What writing a header throws once the headers are sent. *)
Definition headers_sent_error : Error :=
  mkError (lit "Error")
    (lit "Cannot set headers after they are sent to the client").

(** [res.status(code).json(o)] and [res.status(code).send(text)] *)
Definition reply_json (x : exchange) (code : Z)
           (o : list (jsstring * jsstring)) : outcome :=
  if headersSent x then NextError headers_sent_error
  else Respond (mkResponse code (JsonBody (JSON_stringify o))).

Definition reply_text (x : exchange) (code : Z) (text : string) : outcome :=
  if headersSent x then NextError headers_sent_error
  else Respond (mkResponse code (TextBody (lit text))).

(** *** The middleware file *)

Definition notFoundHandler (x : exchange) : list line * outcome :=
  ([],
   reply_json x 404
     [(lit "error", lit "Not Found");
      (lit "message", lit "The requested resource was not found")]).

Definition errorHandler (node_env : option jsstring) (err : Error)
           (x : exchange) : list line * outcome :=
  ([ErrorLine "Error:" (Some (message err)); ErrorLine "Stack:" None],
   if str_eqb (name err) (lit "ValidationError") then
     reply_json x 400
       [(lit "error", lit "Validation Error"); (lit "message", message err)]
   else if str_eqb (name err) (lit "UnauthorizedError") then
     reply_json x 401
       [(lit "error", lit "Unauthorized");
        (lit "message", lit "Authentication required")]
   else
     reply_json x 500
       [(lit "error", lit "Internal Server Error");
        (lit "message",
         if is_production node_env then lit "Something went wrong"
         else message err)]).

(** *** server/index.ts *)

(** The error handler registered before [errorHandler], "for static
    files". *)
Definition static_error_handler (err : Error) (x : exchange)
  : list line * outcome :=
  if includes (message err) (lit "ENOENT") then
    ([ErrorLine "Static file not found:" (Some (path x))],
     reply_text x 404 "File Not Found")
  else
    ([ErrorLine "Static file error:" None],
     reply_text x 500 "Internal Server Error").

(** The fallback route for client-side routing; [sent] is what
    [res.sendFile] reports to its callback: nothing, or an error. *)
Definition spa_fallback (x : exchange) (sent : option Error)
  : list line * outcome :=
  if startsWith (path x) (lit "/api") then ([], Next)
  else
    match sent with
    | None => ([], Respond (mkResponse 200 (FileBody "index.html")))
    | Some err => ([ErrorLine "Error serving index.html:" None], NextError err)
    end.

(** The error handlers of the application, in the order of their
    [app.use]. *)
Definition error_chain (node_env : option jsstring)
  : list (Error -> exchange -> list line * outcome) :=
  [static_error_handler; errorHandler node_env].

(** The framework hands an error to the error handlers in order: the first
    that answers ends the request; one that passes an error on (or throws)
    gives it to the next; when none is left, or one calls [next()] without an
    error, no handler of the application answers. *)
Fixpoint handle_error (chain : list (Error -> exchange -> list line * outcome))
         (err : Error) (x : exchange) : list line * option response :=
  match chain with
  | [] => ([], None)
  | h :: chain' =>
      let '(w, o) := h err x in
      match o with
      | Respond r => (w, Some r)
      | Next => (w, None)
      | NextError err' =>
          let '(w', r) := handle_error chain' err' x in (w ++ w', r)
      end
  end.

End Express.

(* ===================================================================== *)
(** ** What is observed of a run *)
(* ===================================================================== *)

Module Watch.
Import Js Conn.

Definition is_message (e : event) : bool :=
  match e with EMessage _ => true | _ => false end.

(** A sequence of events without its messages. *)
Definition without_messages (tr : list event) : list event :=
  List.filter (fun e => negb (is_message e)) tr.

(** The calls of the supervisor: on the interval and on the socket's
    liveness. *)
Definition is_supervision (e : effect) : bool :=
  match e with
  | ClearInterval | Terminate | Ping => true
  | _ => false
  end.

Definition supervision (w : list effect) : list effect :=
  List.filter is_supervision w.

End Watch.

Module WatchClock.
Import Js Conn Heartbeat.
Open Scope Z_scope.

(** The runs of the interval fall on the multiples of the period; an armed
    interval has terminated nothing and, when a probe is out, is past its
    first run; at most one termination was made, on a multiple of the period
    from the second on. *)
Definition on_grid (w : world) : Prop :=
  (exists k, 1 <= k /\ next_tick w = period * k) /\
  (heartbeat (sock w) = true ->
   terminations (log w) = [] /\
   (isAlive (sock w) = false -> 2 * period <= next_tick w)) /\
  (List.length (terminations (log w)) <= 1)%nat /\
  (forall tt, In tt (terminations (log w)) -> exists k, 2 <= k /\ tt = period * k).

(** No termination so far was a false alarm, [done] being the arrivals
    handled: while a probe is out no pong has come since it was sent, and
    every termination made was preceded by a full period without a pong. *)
Definition sound_so_far (done : list (Z * arrival)) (w : world) : Prop :=
  now w < next_tick w /\
  (forall t a, In (t, a) done -> t <= now w) /\
  (heartbeat (sock w) = true -> isAlive (sock w) = false ->
   forall t, In (t, Pong) done -> t < next_tick w - period) /\
  (forall tt, In tt (terminations (log w)) ->
     tt <= now w /\
     forall t, In (t, Pong) done -> t < tt - period \/ tt <= t).

End WatchClock.

Module WatchProc.
Import Js Proc.
Open Scope Z_scope.

(** Nothing of a shutdown is under way: no timeout, no listener, no exit. *)
Definition idle (p : proc) : Prop :=
  timers p = [] /\ wss_listeners p = [] /\ server_listeners p = [] /\
  exited p = None.

(** The listeners are the ones [shutdown] and its callback register. *)
Definition kinds (p : proc) : Prop :=
  Forall (eq OnWssClosed) (wss_listeners p) /\
  Forall (eq OnServerClosed) (server_listeners p).

(** Some event of [done] asked for the shutdown, at time [t]. *)
Definition requested_at (done : list (Z * event)) (t : Z) : Prop :=
  exists e, In (t, e) done /\ requests_shutdown e = true.

(** Every pending timeout and every forced exit is accounted for by a
    request made 10 000 ms before it, [done] being the events handled. *)
Definition accounted_timers (done : list (Z * event)) (p : proc) : Prop :=
  (forall d cb, In (d, cb) (timers p) -> requested_at done (d - 10000)) /\
  (forall te, In (te, Exit 1) (trace p) -> requested_at done (te - 10000)).

(** Every exit has status 0 or 1, and a callback waiting for the HTTP server
    or an exit with status 0 is accounted for by the close events handled. *)
Definition accounted_closes (done : list (Z * event)) (p : proc) : Prop :=
  (server_listeners p <> [] -> exists t, In (t, WssClosed) done) /\
  (forall te c, In (te, Exit c) (trace p) ->
     (c = 0 /\ (exists t, In (t, WssClosed) done) /\
      (exists t, In (t, ServerClosed) done)) \/ c = 1).

End WatchProc.

(* ===================================================================== *)
(** ** The fuel of the JSON reader *)
(* ===================================================================== *)

Section JsonText.
Import Js.
Local Open Scope nat_scope.

Lemma skip_ws_length (s : jsstring) : List.length (skip_ws s) <= List.length s.
Proof.
  induction s as [|c s IH]; simpl; [lia|].
  destruct (is_ws c); simpl; lia.
Qed.

Lemma skip_ws_cons (s r : jsstring) (c : N) :
  skip_ws s = c :: r -> List.length r < List.length s.
Proof. intros H. pose proof (skip_ws_length s) as Hl. rewrite H in Hl. simpl in Hl. lia. Qed.

Lemma parse_chars_length (s str rest : jsstring) :
  parse_chars s = Some (str, rest) -> List.length rest < List.length s.
Proof.
  remember (List.length s) as n eqn:Hn. revert s str rest Hn.
  induction n as [n IH] using lt_wf_ind. intros s str rest Hn H.
  destruct s as [|c r]; [discriminate|]. simpl in H, Hn.
  destruct (c =? 34)%N.
  { injection H as _ <-. lia. }
  destruct (c =? 92)%N.
  - destruct r as [|e r']; [discriminate|]. simpl in Hn.
    destruct (e =? 117)%N.
    + destruct r' as [|h1 [|h2 [|h3 [|h4 r'']]]]; try discriminate. simpl in Hn.
      destruct (hex_val h1), (hex_val h2), (hex_val h3), (hex_val h4);
        try discriminate. simpl in H.
      destruct (parse_chars r'') as [[str' rest']|] eqn:E; [|discriminate].
      injection H as _ <-.
      assert (List.length rest' < List.length r'') by (eapply (IH (List.length r'')); [lia|reflexivity|exact E]).
      lia.
    + destruct (unescape e); [|discriminate]. simpl in H.
      destruct (parse_chars r') as [[str' rest']|] eqn:E; [|discriminate].
      injection H as _ <-.
      assert (List.length rest' < List.length r') by (eapply (IH (List.length r')); [lia|reflexivity|exact E]).
      lia.
  - destruct (c <? 32)%N; [discriminate|].
    destruct (parse_chars r) as [[str' rest']|] eqn:E; [|discriminate].
    simpl in H. injection H as _ <-.
    assert (List.length rest' < List.length r) by (eapply (IH (List.length r)); [lia|reflexivity|exact E]).
    lia.
Qed.

Lemma span_digits_length (s ds rest : jsstring) :
  span_digits s = (ds, rest) -> List.length rest <= List.length s.
Proof.
  revert ds rest; induction s as [|c s IH]; intros ds rest H; simpl in H.
  - injection H as _ <-. simpl. lia.
  - destruct (is_digit c).
    + destruct (span_digits s) as [ds' rest'] eqn:E. injection H as _ <-.
      specialize (IH _ _ eq_refl). simpl. lia.
    + injection H as _ <-. lia.
Qed.

Lemma parse_digits1_length (s ds rest : jsstring) :
  parse_digits1 s = Some (ds, rest) -> List.length rest <= List.length s.
Proof.
  unfold parse_digits1. destruct (span_digits s) as [ds' rest'] eqn:E.
  apply span_digits_length in E. destruct ds'; [discriminate|].
  intros H. injection H as _ <-. exact E.
Qed.

Lemma parse_number_length (s num rest : jsstring) :
  parse_number s = Some (num, rest) -> List.length rest < List.length s.
Proof.
  unfold parse_number.
  set (sg := match s with c :: r => if (c =? 45)%N then ([45%N], r) else ([], s) | [] => ([], s) end).
  assert (Hsg : List.length (snd sg) <= List.length s).
  { unfold sg. destruct s as [|c r]; simpl; [lia|]. destruct (c =? 45)%N; simpl; lia. }
  destruct sg as [sign s1]. simpl in Hsg.
  destruct s1 as [|c r]; [discriminate|]. simpl in Hsg.
  intros H.
  assert (Hint : exists int s2, (if (c =? 48)%N then Some ([48%N], r)
            else if is_digit c then let '(ds, rest) := span_digits r in Some (c :: ds, rest)
            else None) = Some (int, s2) /\ List.length s2 <= List.length r).
  { destruct (c =? 48)%N; [eauto|]. destruct (is_digit c); [|discriminate].
    destruct (span_digits r) as [ds rest'] eqn:E. apply span_digits_length in E. eauto. }
  destruct Hint as (int & s2 & Hint & Hl2). rewrite Hint in H. simpl in H.
  clear Hint.
  match type of H with (?m ≫= _) = _ => destruct m as [[frac s3]|] eqn:Hfrac end; [|discriminate].
  assert (Hl3 : List.length s3 <= List.length s2).
  { destruct s2 as [|c2 r2]; [injection Hfrac as _ <-; lia|].
    destruct (c2 =? 46)%N.
    - destruct (parse_digits1 r2) as [[ds rest']|] eqn:E; [|discriminate].
      apply parse_digits1_length in E. simpl in Hfrac. injection Hfrac as _ <-. simpl. lia.
    - injection Hfrac as _ <-. lia. }
  simpl in H.
  match type of H with (?m ≫= _) = _ => destruct m as [[ex s4]|] eqn:Hexp end; [|discriminate].
  assert (Hl4 : List.length s4 <= List.length s3).
  { destruct s3 as [|c3 r3]; [injection Hexp as _ <-; lia|].
    destruct ((c3 =? 101)%N || (c3 =? 69)%N).
    - match type of Hexp with (let '(_, _) := ?x in _) = _ => destruct x as [esign r'] eqn:Hes end.
      assert (List.length r' <= List.length r3).
      { destruct r3 as [|c' r1]; [injection Hes as _ <-; lia|].
        destruct ((c' =? 43)%N || (c' =? 45)%N); injection Hes as _ <-; simpl; lia. }
      destruct (parse_digits1 r') as [[ds rest']|] eqn:E; [|discriminate].
      apply parse_digits1_length in E. simpl in Hexp. injection Hexp as _ <-. simpl. lia.
    - injection Hexp as _ <-. lia. }
  simpl in H. injection H as _ <-. lia.
Qed.

Lemma strip_prefix_length (p s rest : jsstring) :
  strip_prefix p s = Some rest -> List.length rest <= List.length s.
Proof.
  revert s; induction p as [|x p IH]; intros s H; simpl in H.
  - injection H as <-. lia.
  - destruct s as [|y s]; [discriminate|]. destruct (x =? y)%N; [|discriminate].
    specialize (IH s H). simpl. lia.
Qed.


#[local] Arguments strip_prefix : simpl never.
#[local] Arguments parse_chars : simpl never.
#[local] Arguments parse_number : simpl never.
#[local] Arguments skip_ws : simpl never.
#[local] Arguments N.eqb : simpl never.
#[local] Arguments lit : simpl never.

(** Whatever fuel lets a parse succeed, twice the number of characters read
    is enough for the same result; and a successful parse reads at least one
    character. *)
Lemma parse_fuel (f : nat) :
  (forall s v rest, parse_value f s = Some (v, rest) ->
     List.length rest < List.length s /\
     forall g, 2 * (List.length s - List.length rest) <= g ->
       parse_value g s = Some (v, rest)) /\
  (forall s ms rest, parse_members f s = Some (ms, rest) ->
     List.length rest < List.length s /\
     forall g, 2 * (List.length s - List.length rest) <= g ->
       parse_members g s = Some (ms, rest)) /\
  (forall s es rest, parse_elements f s = Some (es, rest) ->
     List.length rest < List.length s /\
     forall g, 2 * (List.length s - List.length rest) <= g ->
       parse_elements g s = Some (es, rest)).
Proof.
  induction f as [|f (IHv & IHm & IHe)]; [repeat split; discriminate|].
  split; [|split].
  - (* a value *)
    intros s v rest H. simpl in H.
    destruct (skip_ws s) as [|c r] eqn:Hs; [discriminate|].
    pose proof (skip_ws_cons _ _ _ Hs) as Hlen.
    destruct (c =? 123)%N eqn:E1.
    { destruct (skip_ws r) as [|c' r'] eqn:Hr; [discriminate|].
      pose proof (skip_ws_cons _ _ _ Hr) as Hlen'.
      destruct (c' =? 125)%N eqn:E2.
      - injection H as <- <-. split; [lia|].
        intros [|g] Hg; [lia|]. simpl. rewrite Hs, E1, Hr, E2. reflexivity.
      - destruct (parse_members f r) as [[ms rest']|] eqn:E; [|discriminate].
        simpl in H. injection H as <- <-.
        destruct (IHm _ _ _ E) as [Hl Hfuel]. split; [lia|].
        intros [|g] Hg; [lia|]. simpl. rewrite Hs, E1, Hr, E2.
        rewrite (Hfuel g) by lia. reflexivity. }
    destruct (c =? 91)%N eqn:E3.
    { destruct (skip_ws r) as [|c' r'] eqn:Hr; [discriminate|].
      pose proof (skip_ws_cons _ _ _ Hr) as Hlen'.
      destruct (c' =? 93)%N eqn:E2.
      - injection H as <- <-. split; [lia|].
        intros [|g] Hg; [lia|]. simpl. rewrite Hs, E1, E3, Hr, E2. reflexivity.
      - destruct (parse_elements f r) as [[es rest']|] eqn:E; [|discriminate].
        simpl in H. injection H as <- <-.
        destruct (IHe _ _ _ E) as [Hl Hfuel]. split; [lia|].
        intros [|g] Hg; [lia|]. simpl. rewrite Hs, E1, E3, Hr, E2.
        rewrite (Hfuel g) by lia. reflexivity. }
    assert (Hscalar : forall g, parse_value (S g) s = parse_value (S f) s).
    { intros g. simpl. rewrite Hs, E1, E3. reflexivity. }
    assert (Hrest : List.length rest <= List.length r).
    { destruct (c =? 34)%N.
      { destruct (parse_chars r) as [[str rest']|] eqn:E; [|discriminate].
        apply parse_chars_length in E. simpl in H. injection H as _ <-. lia. }
      destruct (c =? 116)%N.
      { destruct (strip_prefix (lit "rue") r) as [rest'|] eqn:E; [|discriminate].
        apply strip_prefix_length in E. simpl in H. injection H as _ <-. lia. }
      destruct (c =? 102)%N.
      { destruct (strip_prefix (lit "alse") r) as [rest'|] eqn:E; [|discriminate].
        apply strip_prefix_length in E. simpl in H. injection H as _ <-. lia. }
      destruct (c =? 110)%N.
      { destruct (strip_prefix (lit "ull") r) as [rest'|] eqn:E; [|discriminate].
        apply strip_prefix_length in E. simpl in H. injection H as _ <-. lia. }
      destruct (parse_number (c :: r)) as [[num rest']|] eqn:E; [|discriminate].
      apply parse_number_length in E. simpl in E, H. injection H as _ <-. lia. }
    split; [lia|].
    intros [|g] Hg; [lia|]. rewrite Hscalar. simpl. rewrite Hs, E1, E3. exact H.
  - (* the members of an object *)
    intros s ms rest H. simpl in H.
    destruct (skip_ws s) as [|q r] eqn:Hs; [discriminate|].
    pose proof (skip_ws_cons _ _ _ Hs) as Hlen.
    destruct (q =? 34)%N eqn:E1; [|discriminate].
    destruct (parse_chars r) as [[key r1]|] eqn:Hkey; [|discriminate].
    pose proof (parse_chars_length _ _ _ Hkey) as Hl1. simpl in H.
    destruct (skip_ws r1) as [|colon r2] eqn:Hs1; [discriminate|].
    pose proof (skip_ws_cons _ _ _ Hs1) as Hl2.
    destruct (colon =? 58)%N eqn:E2; [|discriminate].
    destruct (parse_value f r2) as [[v r3]|] eqn:Hv; [|discriminate].
    destruct (IHv _ _ _ Hv) as [Hl3 Hfv]. simpl in H.
    destruct (skip_ws r3) as [|sep r4] eqn:Hs3; [discriminate|].
    pose proof (skip_ws_cons _ _ _ Hs3) as Hl4.
    destruct (sep =? 44)%N eqn:E3.
    + destruct (parse_members f r4) as [[ms' r5]|] eqn:Hm; [|discriminate].
      destruct (IHm _ _ _ Hm) as [Hl5 Hfm]. simpl in H. injection H as <- <-.
      split; [lia|].
      intros [|g] Hg; [lia|]. simpl. rewrite Hs, E1, Hkey. simpl.
      rewrite Hs1, E2, (Hfv g) by lia. simpl. rewrite Hs3, E3, (Hfm g) by lia.
      reflexivity.
    + destruct (sep =? 125)%N eqn:E4; [|discriminate]. injection H as <- <-.
      split; [lia|].
      intros [|g] Hg; [lia|]. simpl. rewrite Hs, E1, Hkey. simpl.
      rewrite Hs1, E2, (Hfv g) by lia. simpl. rewrite Hs3, E3, E4. reflexivity.
  - (* the elements of an array *)
    intros s es rest H. simpl in H.
    destruct (parse_value f s) as [[v r1]|] eqn:Hv; [|discriminate].
    destruct (IHv _ _ _ Hv) as [Hl1 Hfv]. simpl in H.
    destruct (skip_ws r1) as [|sep r2] eqn:Hs1; [discriminate|].
    pose proof (skip_ws_cons _ _ _ Hs1) as Hl2.
    destruct (sep =? 44)%N eqn:E1.
    + destruct (parse_elements f r2) as [[es' r3]|] eqn:He; [|discriminate].
      destruct (IHe _ _ _ He) as [Hl3 Hfe]. simpl in H. injection H as <- <-.
      split; [lia|].
      intros [|g] Hg; [lia|]. simpl. rewrite (Hfv g) by lia. simpl.
      rewrite Hs1, E1, (Hfe g) by lia. reflexivity.
    + destruct (sep =? 93)%N eqn:E2; [|discriminate]. injection H as <- <-.
      split; [lia|].
      intros [|g] Hg; [lia|]. simpl. rewrite (Hfv g) by lia. simpl.
      rewrite Hs1, E1, E2. reflexivity.
Qed.

(** The fuel [JSON_parse] gives is enough: a text that parses with some fuel
    parses with that one, to the same value. *)
Lemma JSON_parse_fuel (text : jsstring) (f : nat) (v : json) (rest : jsstring) :
  parse_value f text = Some (v, rest) ->
  parse_value (2 * List.length text + 2) text = Some (v, rest).
Proof.
  intros H. destruct (parse_fuel f) as (Hv & _ & _).
  destruct (Hv _ _ _ H) as [_ Hfuel]. apply Hfuel. lia.
Qed.

(** [JSON_parse] fails for no lack of fuel: a text that some fuel parses
    whole is parsed by [JSON_parse], to the same value. *)
Lemma JSON_parse_complete (text : jsstring) (f : nat) (v : json) (rest : jsstring) :
  parse_value f text = Some (v, rest) -> skip_ws rest = [] ->
  JSON_parse text = Ok v.
Proof.
  intros H Hrest. unfold JSON_parse.
  rewrite (JSON_parse_fuel text f v rest H), Hrest. reflexivity.
Qed.

End JsonText.


(* ===================================================================== *)
(** ** Properties of the message handler *)
(* ===================================================================== *)

Section Dispatcher.
Import Js Conn.

Lemma str_eqb_eq (a b : jsstring) : str_eqb a b = true <-> a = b.
Proof.
  revert b; induction a as [|x a IH]; intros [|y b]; simpl; try easy.
  rewrite andb_true_iff, N.eqb_eq, IH. split.
  - intros [-> ->]; reflexivity.
  - intros [= -> ->]; split; reflexivity.
Qed.

(** [data.type === 'pong'] holds exactly when the read yields that string. *)
Lemma strict_eq_pong (v : option json) :
  strict_eq_string v (lit "pong") = true <-> v = Some (JString (lit "pong")).
Proof.
  destruct v as [[]|]; simpl; try (split; [discriminate | congruence]).
  rewrite str_eqb_eq. split; [intros ->; reflexivity | congruence].
Qed.

(** The text the design document gives for the two frames. *)
Example ack_frame_text :
  ack_frame = lit "{" ++ quote (lit "type") ++ lit ":" ++ quote (lit "ack") ++ lit "}".
Proof. reflexivity. Qed.

Example error_frame_text :
  error_frame =
    lit "{" ++ quote (lit "type") ++ lit ":" ++ quote (lit "error") ++ lit ","
    ++ quote (lit "message") ++ lit ":" ++ quote (lit "Invalid message format")
    ++ lit "}".
Proof. reflexivity. Qed.

(** What the handler does, by the outcome of the two steps of its [try]
    block: the parse and the read of [type]. *)
Lemma on_message_cases (message : jsstring) (c : conn) :
  on_message message c =
  match JSON_parse message with
  | Throw _ => (Ok tt, c, [ConsoleError "WebSocket message error:"; Send error_frame])
  | Ok data =>
      match get_type data with
      | Throw _ => (Ok tt, c, [ConsoleError "WebSocket message error:"; Send error_frame])
      | Ok ty =>
          if strict_eq_string ty (lit "pong") then (Ok tt, c, [Send ack_frame])
          else (Ok tt, c, [])
      end
  end.
Proof.
  unfold on_message, try_catch, mbind, M_bind, lift.
  destruct (JSON_parse message) as [data|e]; [|reflexivity].
  destruct (get_type data) as [ty|e]; [|reflexivity].
  destruct (strict_eq_string ty (lit "pong")); reflexivity.
Qed.

(** C3.  An inbound frame that parses as JSON and whose [type] is the string
    pong is answered by exactly one call of [ws.send], with the JSON text of
    the record whose only member is [type] with value ack; the handler makes
    no other call and leaves the connection as it was. *)
Theorem pong_is_acknowledged (message : jsstring) (data : json) (c : conn) :
  JSON_parse message = Ok data ->
  get_type data = Ok (Some (JString (lit "pong"))) ->
  on_message message c = (Ok tt, c, [Send ack_frame]) /\
  sent (effects_of (on_message message c)) = [ack_frame] /\
  ack_frame
    = lit "{" ++ quote (lit "type") ++ lit ":" ++ quote (lit "ack") ++ lit "}".
Proof.
  intros Hparse Hty. rewrite on_message_cases, Hparse, Hty. simpl.
  repeat split.
Qed.

Lemma pong_is_acknowledged_witness :
  JSON_parse pong_text = Ok (JObject [(lit "type", JString (lit "pong"))]) /\
  get_type (JObject [(lit "type", JString (lit "pong"))])
    = Ok (Some (JString (lit "pong"))) /\
  on_message pong_text connected = (Ok tt, connected, [Send ack_frame]).
Proof.
  split; [reflexivity|]. split; [reflexivity|].
  apply (pong_is_acknowledged pong_text
           (JObject [(lit "type", JString (lit "pong"))]) connected);
    reflexivity.
Defined.

(** C4 fails as stated: the number 5 and the empty record are JSON that
    violates the schema, and the handler answers neither. *)
Lemma schema_violation_is_not_answered :
  malformed five_text /\
  sent (effects_of (on_message five_text connected)) = [] /\
  malformed empty_object_text /\
  sent (effects_of (on_message empty_object_text connected)) = [] /\
  ~ (forall message c, malformed message ->
       sent (effects_of (on_message message c)) = [error_frame]).
Proof.
  split; [reflexivity|]. split; [reflexivity|].
  split; [reflexivity|]. split; [reflexivity|].
  intros H. specialize (H five_text connected eq_refl). discriminate H.
Qed.

(** C4, amended.  For every payload the handler returns normally and leaves
    the connection as it was (open if it was open, its interval and its
    [isAlive] untouched), and it never calls [ws.terminate()].  When the
    payload is no JSON text, or is the JSON [null], the handler logs and
    makes exactly one call of [ws.send], with the error frame. *)
Theorem decode_failure_is_answered (message : jsstring) (c : conn) :
  (outcome_of (on_message message c) = Ok tt /\
   state_of (on_message message c) = c /\
   ~ In Terminate (effects_of (on_message message c))) /\
  ((exists e, JSON_parse message = Throw e) \/ JSON_parse message = Ok JNull ->
   effects_of (on_message message c)
     = [ConsoleError "WebSocket message error:"; Send error_frame] /\
   sent (effects_of (on_message message c)) = [error_frame]).
Proof.
  rewrite on_message_cases. split.
  - destruct (JSON_parse message) as [data|e].
    + destruct (get_type data) as [ty|e'].
      * destruct (strict_eq_string ty (lit "pong")); simpl;
          (split; [reflexivity|split; [reflexivity|]]); intros H;
          repeat (destruct H as [H|H]; [discriminate H|]); exact H.
      * simpl. split; [reflexivity|split; [reflexivity|]]. intros H.
        repeat (destruct H as [H|H]; [discriminate H|]); exact H.
    + simpl. split; [reflexivity|split; [reflexivity|]]. intros H.
      repeat (destruct H as [H|H]; [discriminate H|]); exact H.
  - intros [[e ->] | ->]; split; reflexivity.
Qed.

Lemma decode_failure_is_answered_witness :
  (exists e, JSON_parse (lit "pong") = Throw e) /\
  sent (effects_of (on_message (lit "pong") connected)) = [error_frame] /\
  JSON_parse null_text = Ok JNull /\
  sent (effects_of (on_message null_text connected)) = [error_frame].
Proof.
  split; [exists SyntaxError; reflexivity|].
  split.
  - apply (proj2 (decode_failure_is_answered (lit "pong") connected)).
    left. exists SyntaxError. reflexivity.
  - split; [reflexivity|].
    apply (proj2 (decode_failure_is_answered null_text connected)).
    right. reflexivity.
Defined.

(** C10 fails as stated: [null] is JSON, it has no [type] that is the string
    pong, and the handler answers it with the error frame, since reading a
    property of [null] throws inside the [try] block. *)
Lemma null_is_answered_with_error :
  JSON_parse null_text = Ok JNull /\
  get_type JNull <> Ok (Some (JString (lit "pong"))) /\
  sent (effects_of (on_message null_text connected)) = [error_frame] /\
  ~ (forall message data c,
       JSON_parse message = Ok data ->
       get_type data <> Ok (Some (JString (lit "pong"))) ->
       sent (effects_of (on_message message c)) = []).
Proof.
  split; [reflexivity|]. split; [discriminate|]. split; [reflexivity|].
  intros H. specialize (H null_text JNull connected eq_refl).
  assert (Hne : get_type JNull <> Ok (Some (JString (lit "pong")))) by discriminate.
  specialize (H Hne). discriminate H.
Qed.

(** C10, amended.  An inbound frame that parses as a JSON value other than
    [null], and whose [type] is not the string pong (a number, a string, a
    boolean or an array has none), gets no call at all from the handler: no
    frame is sent, nothing is logged, and the connection's [isAlive], interval
    and socket state are what they were. *)
Theorem other_json_is_ignored (message : jsstring) (data : json) (c : conn) :
  JSON_parse message = Ok data ->
  data <> JNull ->
  get_type data <> Ok (Some (JString (lit "pong"))) ->
  on_message message c = (Ok tt, c, []).
Proof.
  intros Hparse Hnull Hty. rewrite on_message_cases, Hparse.
  destruct data as [|b|n|s|es|ms]; try reflexivity; [congruence|].
  simpl in *.
  destruct (strict_eq_string (last_member (lit "type") ms) (lit "pong")) eqn:E;
    [|reflexivity].
  apply strict_eq_pong in E. rewrite E in Hty. congruence.
Qed.

Lemma other_json_is_ignored_witness :
  JSON_parse five_text = Ok (JNumber (lit "5")) /\
  on_message five_text connected = (Ok tt, connected, []).
Proof.
  split; [reflexivity|].
  apply (other_json_is_ignored five_text (JNumber (lit "5")) connected);
    [reflexivity | discriminate | discriminate].
Defined.

End Dispatcher.

(* ===================================================================== *)
(** ** Properties of the heartbeat supervisor, event by event *)
(* ===================================================================== *)

Section Supervisor.
Import Js Conn.

(** The delivery of each event, worked out. *)
Lemma deliver_unfold (e : event) (c : conn) :
  deliver e c =
  match e with
  | EPong => (Ok tt, mkConn true (heartbeat c) (readyState c), [])
  | ETick =>
      if heartbeat c then
        if isAlive c then (Ok tt, mkConn false true (readyState c), [Ping])
        else (Ok tt,
              mkConn false false
                (match readyState c with CLOSED => CLOSED | _ => CLOSING end),
              [ClearInterval; Terminate])
      else (Ok tt, c, [])
  | EClose =>
      (Ok tt, mkConn (isAlive c) false CLOSED,
       [ConsoleLog "WebSocket connection closed"; ClearInterval])
  | EError =>
      (Ok tt,
       mkConn (isAlive c) false
         (match readyState c with OPEN => CLOSING | s => s end),
       [ConsoleError "WebSocket error:"; ClearInterval])
  | EMessage message => on_message message c
  end.
Proof.
  destruct e; try reflexivity.
  - destruct c as [[] [] rs]; reflexivity.
  - destruct c as [a h []]; reflexivity.
Qed.

Lemma on_message_state (message : jsstring) (c : conn) :
  state_of (on_message message c) = c.
Proof.
  rewrite on_message_cases.
  destruct (JSON_parse message) as [data|]; [|reflexivity].
  destruct (get_type data) as [ty|]; [|reflexivity].
  destruct (strict_eq_string ty (lit "pong")); reflexivity.
Qed.

Lemma on_message_no_terminate (message : jsstring) (c : conn) :
  ~ In Terminate (effects_of (on_message message c)).
Proof. apply (decode_failure_is_answered message c). Qed.

(** C1.  The callback of the interval is a function of [isAlive] with two
    branches: when the flag is false it clears the interval and calls
    [ws.terminate()]; otherwise it sets the flag to false and calls
    [ws.ping()].  Among the events a connection receives, the pong is the
    only one that takes the flag from false to true. *)
Theorem heartbeat_tick_step (c : conn) (e : event) :
  heartbeat_tick c =
    (if isAlive c then
       (Ok tt, mkConn false (heartbeat c) (readyState c), [Ping])
     else
       (Ok tt,
        mkConn false false
          (match readyState c with CLOSED => CLOSED | _ => CLOSING end),
        [ClearInterval; Terminate])) /\
  (isAlive c = false -> isAlive (step e c) = true -> e = EPong).
Proof.
  split.
  - destruct c as [[] h rs]; reflexivity.
  - unfold step. rewrite deliver_unfold. intros Hdead.
    destruct e as [| | | |message]; [reflexivity| | | |].
    + destruct (heartbeat c); [rewrite Hdead|]; unfold state_of; simpl;
        intros; congruence.
    + unfold state_of; simpl. intros; congruence.
    + unfold state_of; simpl. intros; congruence.
    + rewrite on_message_state. intros; congruence.
Qed.

Lemma heartbeat_tick_step_witness :
  let c := step ETick connected in
  isAlive c = false /\ isAlive (step EPong c) = true /\ EPong = EPong.
Proof.
  split; [reflexivity|]. split; [reflexivity|].
  apply (proj2 (heartbeat_tick_step (step ETick connected) EPong));
    reflexivity.
Defined.

(** Once the interval is cleared it stays cleared, and the supervisor makes
    no further call of [ws.terminate()]. *)
Lemma cleared_step (e : event) (c : conn) :
  heartbeat c = false ->
  heartbeat (step e c) = false /\ ~ In Terminate (effects_of (deliver e c)).
Proof.
  intros Hc. unfold step. rewrite deliver_unfold.
  destruct e as [| | | |message]; try rewrite Hc; unfold state_of, effects_of;
    simpl.
  - split; [reflexivity | intros []].
  - split; [exact Hc | intros []].
  - split; [reflexivity | intros [H|[H|[]]]; discriminate H].
  - split; [reflexivity | intros [H|[H|[]]]; discriminate H].
  - fold (state_of (on_message message c)).
    fold (effects_of (on_message message c)).
    rewrite on_message_state. split; [exact Hc|apply on_message_no_terminate].
Qed.








End Supervisor.

(* ===================================================================== *)
(** ** Properties of the heartbeat supervisor on the clock *)
(* ===================================================================== *)

Section Timeline.
Import Js Conn Heartbeat.
Local Open Scope Z_scope.

#[local] Arguments handle : simpl never.
#[local] Arguments advance : simpl never.
#[local] Arguments fire : simpl never.
#[local] Arguments deliver_now : simpl never.

Lemma period_pos : 0 < period.
Proof. reflexivity. Qed.

Lemma ticks_due_later (t : Z) (w : world) :
  t < next_tick w -> ticks_due t w = O.
Proof.
  intros H. unfold ticks_due.
  destruct (Z.leb_spec (next_tick w) t); [lia|reflexivity].
Qed.

Lemma ticks_due_fire (t : Z) (w : world) :
  next_tick w <= t -> ticks_due t w = S (ticks_due t (fire w)).
Proof.
  intros H. unfold ticks_due. simpl. unfold period.
  destruct (Z.leb_spec (next_tick w) t); [|lia].
  f_equal.
  destruct (Z.leb_spec (next_tick w + 30000) t) as [H1|H1].
  - replace (t - next_tick w) with (t - (next_tick w + 30000) + 1 * 30000) by lia.
    rewrite Z.div_add by lia.
    assert (0 <= (t - (next_tick w + 30000)) / 30000) by (apply Z.div_pos; lia).
    lia.
  - rewrite Z.div_small by lia. reflexivity.
Qed.

Lemma advance_later (t : Z) (w : world) :
  t < next_tick w -> advance t w = settle t w.
Proof. intros H. unfold advance. rewrite ticks_due_later by exact H. reflexivity. Qed.

Lemma advance_fire (t : Z) (w : world) :
  next_tick w <= t -> advance t w = advance t (fire w).
Proof.
  intros H. unfold advance. rewrite (ticks_due_fire t w H).
  rewrite Nat.iter_succ_r. reflexivity.
Qed.

(** A property that every due run of the interval preserves, and that
    survives the clock settling, holds after time has passed. *)
Lemma advance_ind (t : Z) (P : world -> Prop) :
  (forall w, next_tick w <= t -> P w -> P (fire w)) ->
  (forall w, t < next_tick w -> P w -> P (settle t w)) ->
  forall w, P w -> P (advance t w).
Proof.
  intros Hfire Hsettle w.
  remember (ticks_due t w) as n eqn:Hn. revert w Hn.
  induction n as [|n IH]; intros w Hn Hw.
  - assert (t < next_tick w).
    { unfold ticks_due in Hn.
      destruct (Z.leb_spec (next_tick w) t); [discriminate|lia]. }
    rewrite advance_later by assumption. auto.
  - assert (next_tick w <= t).
    { unfold ticks_due in Hn.
      destruct (Z.leb_spec (next_tick w) t); [lia|discriminate]. }
    rewrite advance_fire by assumption. apply IH; [|auto].
    rewrite (ticks_due_fire t w) in Hn by assumption. congruence.
Qed.

Lemma terminations_app (l1 l2 : list (Z * effect)) :
  terminations (l1 ++ l2) = terminations l1 ++ terminations l2.
Proof. unfold terminations. apply omap_app. Qed.

Lemma terminations_stamp_none (t : Z) (w : list effect) :
  ~ In Terminate w -> terminations (pair t <$> w) = [].
Proof.
  induction w as [|e w IH]; intros H; [reflexivity|].
  simpl in H. cbn. destruct e; simpl; try (apply IH; tauto).
  exfalso. apply H. left. reflexivity.
Qed.

(** A run of the interval, by the state of the connection. *)
Lemma fire_unfold (w : world) :
  fire w =
  if heartbeat (sock w) then
    if isAlive (sock w) then
      mkWorld (mkConn false true (readyState (sock w)))
        (next_tick w) (next_tick w + period) (log w ++ [(next_tick w, Ping)])
    else
      mkWorld
        (mkConn false false
           (match readyState (sock w) with CLOSED => CLOSED | _ => CLOSING end))
        (next_tick w) (next_tick w + period)
        (log w ++ [(next_tick w, ClearInterval); (next_tick w, Terminate)])
  else mkWorld (sock w) (next_tick w) (next_tick w + period) (log w).
Proof.
  unfold fire, deliver_now. rewrite deliver_unfold. simpl.
  destruct (heartbeat (sock w)); [destruct (isAlive (sock w))|];
    unfold state_of, effects_of; simpl; try reflexivity.
  rewrite app_nil_r. reflexivity.
Qed.

(** An arrival never arms the interval and never terminates the socket. *)
Lemma arrival_step (a : arrival) (c : conn) :
  ~ In Terminate (effects_of (deliver (event_of a) c)) /\
  (heartbeat (step (event_of a) c) = true -> heartbeat c = true) /\
  (isAlive (step (event_of a) c) = false -> isAlive c = false).
Proof.
  unfold step. rewrite deliver_unfold.
  destruct a as [| | |message]; unfold state_of, effects_of; simpl.
  - split; [intros []|]. split; [tauto|discriminate].
  - split; [intros [H|[H|[]]]; discriminate H|]. split; [discriminate|tauto].
  - split; [intros [H|[H|[]]]; discriminate H|]. split; [discriminate|tauto].
  - fold (state_of (on_message message c)).
    fold (effects_of (on_message message c)).
    rewrite on_message_state.
    split; [apply on_message_no_terminate|]. tauto.
Qed.

Lemma deliver_now_terminations (a : arrival) (w : world) :
  terminations (log (deliver_now (event_of a) w)) = terminations (log w).
Proof.
  unfold deliver_now. simpl. rewrite terminations_app.
  rewrite terminations_stamp_none by apply arrival_step.
  apply app_nil_r.
Qed.

(** *** After the interval is cleared *)

Lemma cleared_advance (t : Z) (w : world) :
  heartbeat (sock w) = false ->
  heartbeat (sock (advance t w)) = false /\
  terminations (log (advance t w)) = terminations (log w).
Proof.
  intros Hw.
  apply (advance_ind t (fun w' => heartbeat (sock w') = false /\
                                 terminations (log w') = terminations (log w))).
  - intros w' _ [Hc Ht]. rewrite fire_unfold, Hc. simpl. auto.
  - intros w' _ H. exact H.
  - auto.
Qed.

Lemma cleared_handle (ta : Z * arrival) (w : world) :
  heartbeat (sock w) = false ->
  heartbeat (sock (handle ta w)) = false /\
  terminations (log (handle ta w)) = terminations (log w).
Proof.
  intros Hw. destruct (cleared_advance (fst ta) w Hw) as [Hc Ht].
  unfold handle. rewrite deliver_now_terminations. split; [|exact Ht].
  destruct (heartbeat (sock (deliver_now (event_of (snd ta)) (advance (fst ta) w))))
    eqn:E; [|reflexivity].
  apply (arrival_step (snd ta)) in E. congruence.
Qed.

Lemma run_timed_cons (ta : Z * arrival) (tr : list (Z * arrival)) (w : world) :
  run_timed (ta :: tr) w = run_timed tr (handle ta w).
Proof. reflexivity. Qed.

Lemma run_timed_app (tr1 tr2 : list (Z * arrival)) (w : world) :
  run_timed (tr1 ++ tr2) w = run_timed tr2 (run_timed tr1 w).
Proof. apply fold_left_app. Qed.

Lemma cleared_world (tr : list (Z * arrival)) (T : Z) (w : world) :
  heartbeat (sock w) = false ->
  terminations (log (advance T (run_timed tr w))) = terminations (log w).
Proof.
  revert w; induction tr as [|ta tr IH]; intros w Hw.
  - apply cleared_advance, Hw.
  - destruct (cleared_handle ta w Hw) as [Hc Ht].
    rewrite run_timed_cons, (IH _ Hc). exact Ht.
Qed.

(** *** A peer that has stopped answering *)

Lemma silent_cons (ta : Z * arrival) (tr : list (Z * arrival)) :
  silent (ta :: tr) = true ->
  (exists message, snd ta = Message message) /\ silent tr = true.
Proof.
  unfold silent. simpl. rewrite andb_true_iff. intros [Ha Htr].
  split; [|exact Htr]. destruct (snd ta); try discriminate. eauto.
Qed.

(** A message that arrives before the next run of the interval changes
    neither the connection nor the clock of the interval. *)
Lemma message_before_tick (t : Z) (message : jsstring) (w : world) :
  t < next_tick w ->
  let w' := handle (t, Message message) w in
  sock w' = sock w /\ next_tick w' = next_tick w /\
  terminations (log w') = terminations (log w).
Proof.
  intros Ht. unfold handle. simpl fst; simpl snd.
  rewrite deliver_now_terminations. rewrite advance_later by exact Ht.
  simpl. rewrite on_message_state. auto.
Qed.

Lemma handle_fire (ta : Z * arrival) (w : world) :
  next_tick w <= fst ta -> handle ta w = handle ta (fire w).
Proof. intros H. unfold handle. rewrite advance_fire by exact H. reflexivity. Qed.

(** The flag is false and the interval armed: the next run terminates. *)
Lemma unanswered_probe_terminates (tr : list (Z * arrival)) (T : Z) (w : world) :
  silent tr = true ->
  heartbeat (sock w) = true -> isAlive (sock w) = false ->
  next_tick w <= T ->
  terminations (log (advance T (run_timed tr w)))
    = terminations (log w) ++ [next_tick w].
Proof.
  intros Hs Harmed Hdead HT.
  assert (Hfire : heartbeat (sock (fire w)) = false /\
                  terminations (log (fire w)) = terminations (log w) ++ [next_tick w]).
  { rewrite fire_unfold, Harmed, Hdead. simpl. split; [reflexivity|].
    rewrite terminations_app. reflexivity. }
  destruct Hfire as [Hc Hlog].
  revert w Hs Harmed Hdead HT Hc Hlog.
  induction tr as [|ta tr IH]; intros w Hs Harmed Hdead HT Hc Hlog.
  - change (run_timed [] w) with w. rewrite advance_fire by exact HT.
    rewrite <- Hlog. apply (cleared_world [] T (fire w) Hc).
  - destruct (silent_cons ta tr Hs) as [[message Hm] Hs'].
    destruct ta as [t a]. simpl in Hm. subst a.
    destruct (Z.lt_ge_cases t (next_tick w)) as [Hlt|Hge].
    + destruct (message_before_tick t message w Hlt) as (Hsock & Hnext & Hterm).
      rewrite run_timed_cons, IH.
      * rewrite Hterm, Hnext. reflexivity.
      * exact Hs'.
      * rewrite Hsock. exact Harmed.
      * rewrite Hsock. exact Hdead.
      * rewrite Hnext. exact HT.
      * rewrite fire_unfold, Hsock, Harmed, Hdead. reflexivity.
      * rewrite fire_unfold, Hsock, Harmed, Hdead. cbn [log].
        rewrite terminations_app, Hterm, Hnext. reflexivity.
    + rewrite run_timed_cons, handle_fire by exact Hge.
      rewrite <- run_timed_cons.
      rewrite <- Hlog.
      apply (cleared_world ((t, Message message) :: tr) T (fire w) Hc).
Qed.

(** The flag is true and the interval armed: the next run probes, the one
    after it terminates. *)
Lemma unanswered_peer_terminates (tr : list (Z * arrival)) (T : Z) (w : world) :
  silent tr = true ->
  heartbeat (sock w) = true -> isAlive (sock w) = true ->
  next_tick w + period <= T ->
  terminations (log (advance T (run_timed tr w)))
    = terminations (log w) ++ [next_tick w + period].
Proof.
  intros Hs Harmed Halive HT.
  assert (Hfire : heartbeat (sock (fire w)) = true /\
                  isAlive (sock (fire w)) = false /\
                  next_tick (fire w) = next_tick w + period /\
                  terminations (log (fire w)) = terminations (log w)).
  { rewrite fire_unfold, Harmed, Halive. simpl. repeat split.
    rewrite terminations_app. apply app_nil_r. }
  destruct Hfire as (Ha & Hd & Hn & Hlog).
  assert (Hpos := period_pos).
  revert w Hs Harmed Halive HT Ha Hd Hn Hlog.
  induction tr as [|ta tr IH]; intros w Hs Harmed Halive HT Ha Hd Hn Hlog.
  - change (run_timed [] w) with w. rewrite advance_fire by lia.
    rewrite <- Hlog, <- Hn.
    apply (unanswered_probe_terminates [] T (fire w));
      first [assumption | reflexivity | lia].
  - destruct (silent_cons ta tr Hs) as [[message Hm] Hs'].
    destruct ta as [t a]. simpl in Hm. subst a.
    destruct (Z.lt_ge_cases t (next_tick w)) as [Hlt|Hge].
    + destruct (message_before_tick t message w Hlt) as (Hsock & Hnext & Hterm).
      rewrite run_timed_cons, IH.
      * rewrite Hterm, Hnext. reflexivity.
      * exact Hs'.
      * rewrite Hsock. exact Harmed.
      * rewrite Hsock. exact Halive.
      * rewrite Hnext. exact HT.
      * rewrite fire_unfold, Hsock, Harmed, Halive. reflexivity.
      * rewrite fire_unfold, Hsock, Harmed, Halive. reflexivity.
      * rewrite fire_unfold, Hsock, Harmed, Halive. cbn [next_tick].
        rewrite Hnext. reflexivity.
      * rewrite fire_unfold, Hsock, Harmed, Halive. cbn [log].
        rewrite terminations_app, Hterm. apply app_nil_r.
    + rewrite run_timed_cons, handle_fire by exact Hge.
      rewrite <- run_timed_cons.
      rewrite <- Hlog, <- Hn.
      apply (unanswered_probe_terminates ((t, Message message) :: tr) T (fire w));
        first [assumption | lia].
Qed.

(** *** The clock stays in step *)

Lemma in_step_start : in_step start /\ now start = 0.
Proof. unfold in_step. simpl. unfold period. repeat split; lia. Qed.

Lemma now_advance_ge (t : Z) (w : world) : t <= now (advance t w).
Proof. unfold advance, settle. cbn [now]. lia. Qed.

Lemma in_step_advance (t : Z) (w : world) :
  in_step w -> now w <= t ->
  in_step (advance t w) /\ now (advance t w) = t.
Proof.
  intros Hw Hnow. assert (Hpos := period_pos).
  assert (H : in_step (advance t w) /\ now (advance t w) <= t).
  { apply (advance_ind t (fun w' => in_step w' /\ now w' <= t)); [| |auto].
    - intros w' Hdue [[Hclock Hterm] _]. rewrite fire_unfold.
      destruct (heartbeat (sock w')) eqn:Ha; [destruct (isAlive (sock w'))|];
        unfold in_step; cbn [now next_tick sock log heartbeat].
      + split; [split; [lia|]|lia]. intros _.
        rewrite terminations_app, Hterm by reflexivity. reflexivity.
      + split; [split; [lia|discriminate]|lia].
      + split; [split; [lia|intros; congruence]|lia].
    - intros w' Hlater [[Hclock Hterm] Hle]. unfold in_step, settle.
      cbn [now next_tick sock log]. split; [split; [lia|exact Hterm]|lia]. }
  destruct H as [H Hle]. split; [exact H|].
  pose proof (now_advance_ge t w). lia.
Qed.

Lemma in_step_handle (ta : Z * arrival) (w : world) :
  in_step w -> now w <= fst ta ->
  in_step (handle ta w) /\ now (handle ta w) = fst ta.
Proof.
  intros Hw Hnow.
  destruct (in_step_advance (fst ta) w Hw Hnow) as [[Hclock Hterm] Heq].
  unfold handle. split; [|exact Heq].
  unfold in_step. rewrite deliver_now_terminations.
  split; [exact Hclock|]. intros Ha. apply Hterm.
  apply (arrival_step (snd ta)). exact Ha.
Qed.

(** Arrivals in chronological order are handled at the time they carry. *)
Lemma in_step_run (tr : list (Z * arrival)) (ta : Z * arrival) (from : Z)
      (w : world) :
  in_step w -> now w <= from ->
  chronological from (tr ++ [ta]) = true ->
  in_step (run_timed tr w) /\ now (run_timed tr w) <= fst ta.
Proof.
  revert from w; induction tr as [|[t a] tr IH]; intros from w Hw Hnow Hch.
  - destruct ta as [t a]. simpl in Hch. rewrite andb_true_iff, Z.leb_le in Hch.
    simpl. split; [exact Hw|lia].
  - simpl in Hch. rewrite andb_true_iff, Z.leb_le in Hch. destruct Hch as [Hle Hch].
    destruct (in_step_handle (t, a) w Hw) as [Hw' Heq]; [simpl; lia|].
    rewrite run_timed_cons. apply (IH t); [exact Hw'| |exact Hch].
    rewrite Heq. simpl. lia.
Qed.

Lemma chronological_app (from : Z) (tr1 tr2 : list (Z * arrival)) :
  chronological from (tr1 ++ tr2) = true -> chronological from tr1 = true.
Proof.
  revert from; induction tr1 as [|[t a] tr1 IH]; intros from H; [reflexivity|].
  simpl in *. rewrite andb_true_iff in *. destruct H as [H1 H2].
  split; [exact H1|]. apply IH, H2.
Qed.

(** The supervisor terminates a peer that stops answering between one and
    two periods after its last pong. *)
Lemma last_pong_latency (pre post : list (Z * arrival)) (tp T : Z) :
  chronological 0 (pre ++ (tp, Pong) :: post) = true ->
  heartbeat (sock (run_timed (pre ++ [(tp, Pong)]) start)) = true ->
  silent post = true ->
  tp + 2 * period <= T ->
  exists tt,
    terminations (log (observe T (pre ++ (tp, Pong) :: post))) = [tt] /\
    tp + period <= tt <= tp + 2 * period.
Proof.
  intros Hch Harmed Hsilent HT.
  destruct in_step_start as [Hstart Hzero].
  assert (Hch' : chronological 0 (pre ++ [(tp, Pong)]) = true).
  { apply (chronological_app 0 (pre ++ [(tp, Pong)]) post).
    rewrite <- app_assoc. exact Hch. }
  destruct (in_step_run pre (tp, Pong) 0 start Hstart) as [Hpre Hnow];
    [lia|exact Hch'|].
  destruct (in_step_handle (tp, Pong) (run_timed pre start) Hpre Hnow)
    as [[Hclock Hterm] Heq].
  rewrite run_timed_app in Harmed. change (run_timed [(tp, Pong)] ?w)
    with (handle (tp, Pong) w) in Harmed.
  set (w1 := handle (tp, Pong) (run_timed pre start)) in *.
  assert (Halive : isAlive (sock w1) = true) by reflexivity.
  exists (next_tick w1 + period). cbn [fst] in Heq. split; [|lia].
  unfold observe. rewrite run_timed_app, run_timed_cons. fold w1.
  rewrite (unanswered_peer_terminates post T w1 Hsilent Harmed Halive) by lia.
  rewrite (Hterm Harmed). reflexivity.
Qed.

(** A peer that never answers is terminated two periods after the
    connection was made. *)
Lemma never_answering_latency (tr : list (Z * arrival)) (T : Z) :
  silent tr = true -> 2 * period <= T ->
  terminations (log (observe T tr)) = [2 * period].
Proof.
  intros Hsilent HT. unfold observe.
  rewrite (unanswered_peer_terminates tr T start Hsilent) by
      first [reflexivity | exact HT].
  reflexivity.
Qed.

(** *** A peer that answers every probe *)

Section Answering.
Variables (tr : list (Z * arrival)) (T : Z).
Hypothesis Hanswers : answers_every_probe tr T.

(** A run of the interval that is due finds the last probe answered. *)
Lemma answered_fire (done rest : list (Z * arrival)) (t : Z) (w : world) :
  tr = done ++ rest ->
  (forall t' a, In (t', a) rest -> t <= t') ->
  t <= T -> next_tick w <= t ->
  answered_so_far done w -> answered_so_far done (fire w).
Proof.
  intros Htr Hrest HtT Hdue (Hnow & [k [Hk Hnext]] & Hdone & Hprobe & Hterm).
  rewrite fire_unfold.
  destruct (heartbeat (sock w)) eqn:Ha; [destruct (isAlive (sock w)) eqn:Hl|];
    unfold answered_so_far; cbn [now next_tick sock log heartbeat isAlive];
    unfold period in Hnext, Hprobe |- *.
  - (* the flag was true: a new probe goes out *)
    split; [lia|]. split; [exists (k + 1); split; lia|].
    split; [intros t' a Hin; specialize (Hdone t' a Hin); lia|].
    split.
    + intros _ _. split; [lia|].
      intros t' Hin. specialize (Hdone t' Pong Hin). lia.
    + rewrite terminations_app, Hterm. reflexivity.
  - (* the flag was false: impossible, the probe was answered *)
    exfalso. destruct (Hprobe eq_refl eq_refl) as [Htwo Hold].
    assert (Hk2 : 1 <= k - 1) by lia.
    destruct (Hanswers (k - 1) Hk2) as (tp & Hin & Hlo & Hhi);
      [unfold period; lia|].
    unfold period in Hlo, Hhi.
    rewrite Htr, in_app_iff in Hin. destruct Hin as [Hin|Hin].
    + specialize (Hold tp Hin). lia.
    + specialize (Hrest tp Pong Hin). lia.
  - (* the interval was cleared *)
    split; [lia|]. split; [exists (k + 1); split; lia|].
    split; [intros t' a Hin; specialize (Hdone t' a Hin); lia|].
    split; [intros; congruence|exact Hterm].
Qed.

Lemma answered_advance (done rest : list (Z * arrival)) (t : Z) (w : world) :
  tr = done ++ rest ->
  (forall t' a, In (t', a) rest -> t <= t') ->
  t <= T ->
  answered_so_far done w -> answered_so_far done (advance t w).
Proof.
  intros Htr Hrest HtT.
  apply (advance_ind t (answered_so_far done)).
  - intros w' Hdue Hw'. apply (answered_fire done rest t); assumption.
  - intros w' Hlater (Hnow & Hk & Hdone & Hprobe & Hterm).
    unfold answered_so_far, settle. cbn [now next_tick sock log].
    split; [lia|]. split; [exact Hk|].
    split; [intros t' a Hin; specialize (Hdone t' a Hin); lia|].
    split; assumption.
Qed.

Lemma answered_deliver (done : list (Z * arrival)) (t : Z) (a : arrival)
      (w : world) :
  t <= now w ->
  answered_so_far done w ->
  answered_so_far (done ++ [(t, a)]) (deliver_now (event_of a) w).
Proof.
  intros Ht (Hnow & Hk & Hdone & Hprobe & Hterm).
  unfold answered_so_far. rewrite deliver_now_terminations.
  unfold deliver_now. cbn [now next_tick sock].
  split; [exact Hnow|]. split; [exact Hk|].
  split.
  { intros t' a' Hin. rewrite in_app_iff in Hin. destruct Hin as [Hin|[Heq|[]]].
    - apply (Hdone t' a' Hin).
    - injection Heq as <- <-. exact Ht. }
  split; [|exact Hterm].
  fold (step (event_of a) (sock w)). intros Harmed Hdead.
  destruct (arrival_step a (sock w)) as (_ & Harm & Hflag).
  destruct (Hprobe (Harm Harmed) (Hflag Hdead)) as [Htwo Hold].
  split; [exact Htwo|].
  intros t' Hin. rewrite in_app_iff in Hin. destruct Hin as [Hin|[Heq|[]]].
  - apply (Hold t' Hin).
  - injection Heq as _ Ha. subst a. discriminate Hdead.
Qed.

Lemma chronological_ge (from : Z) (l : list (Z * arrival)) :
  chronological from l = true -> forall t a, In (t, a) l -> from <= t.
Proof.
  revert from; induction l as [|[t0 a0] l IH]; intros from H t a Hin;
    [destruct Hin|].
  simpl in H. rewrite andb_true_iff, Z.leb_le in H. destruct H as [H0 H1].
  destruct Hin as [Heq|Hin].
  - injection Heq as <- <-. exact H0.
  - specialize (IH t0 H1 t a Hin). lia.
Qed.

Lemma answered_run (rest done : list (Z * arrival)) (w : world) :
  tr = done ++ rest ->
  chronological (now w) rest = true ->
  (forall t a, In (t, a) rest -> t <= T) ->
  answered_so_far done w ->
  terminations (log (advance T (run_timed rest w))) = [].
Proof.
  revert done w; induction rest as [|[t a] rest IH]; intros done w Htr Hch HT Hw.
  - change (run_timed [] w) with w.
    apply (answered_advance done [] T w); [exact Htr| |lia|exact Hw].
    intros t' a' [].
  - rewrite run_timed_cons.
    pose proof (chronological_ge _ _ Hch) as Hge.
    simpl in Hch. rewrite andb_true_iff, Z.leb_le in Hch. destruct Hch as [Hle Hch].
    assert (Hadv : answered_so_far done (advance t w)).
    { apply (answered_advance done ((t, a) :: rest)); [exact Htr| | |exact Hw].
      - intros t' a' [Heq|Hin].
        + injection Heq as <- <-. lia.
        + apply (chronological_ge t rest Hch t' a' Hin).
      - apply (HT t a). left. reflexivity. }
    assert (Hnow : now (advance t w) = t).
    { pose proof (now_advance_ge t w) as Hlo.
      assert (Hhi : now (advance t w) <= t); [|lia].
      apply (advance_ind t (fun w' => now w' <= t)).
      - intros w' Hdue _. rewrite fire_unfold.
        destruct (heartbeat (sock w')); [destruct (isAlive (sock w'))|];
          cbn [now]; exact Hdue.
      - intros w' _ Hle'. unfold settle. cbn [now]. lia.
      - exact Hle. }
    apply (IH (done ++ [(t, a)])).
    + rewrite <- app_assoc. exact Htr.
    + unfold handle, deliver_now. cbn [now fst snd]. rewrite Hnow. exact Hch.
    + intros t' a' Hin. apply (HT t' a'). right. exact Hin.
    + unfold handle. cbn [fst snd]. apply answered_deliver; [lia|exact Hadv].
Qed.

End Answering.

(** The supervisor never terminates a peer that answers every probe within
    one period. *)
Lemma answering_peer_survives (tr : list (Z * arrival)) (T : Z) :
  chronological 0 tr = true ->
  (forall t a, In (t, a) tr -> t <= T) ->
  answers_every_probe tr T ->
  terminations (log (observe T tr)) = [].
Proof.
  intros Hch HT Hanswers. unfold observe.
  apply (answered_run tr T Hanswers tr [] start); [reflexivity|exact Hch|exact HT|].
  unfold answered_so_far. simpl. unfold period.
  split; [lia|]. split; [exists 1; lia|].
  split; [intros t a []|]. split; [discriminate|reflexivity].
Qed.

(** C2.  With the interval running every 30 000 ms: a peer that answers
    every probe within one period is never terminated by the supervisor; and
    for a peer that stops answering (after its last pong only messages
    arrive, and the connection was still supervised at that pong), the
    supervisor terminates the socket exactly once, no sooner than one period
    and no later than two periods after the last pong. *)
Theorem heartbeat_detection_latency :
  period = 30000 /\
  (forall (tr : list (Z * arrival)) (T : Z),
     chronological 0 tr = true ->
     (forall t a, In (t, a) tr -> t <= T) ->
     answers_every_probe tr T ->
     terminations (log (observe T tr)) = []) /\
  (forall (pre post : list (Z * arrival)) (tp T : Z),
     chronological 0 (pre ++ (tp, Pong) :: post) = true ->
     heartbeat (sock (run_timed (pre ++ [(tp, Pong)]) start)) = true ->
     silent post = true ->
     tp + 2 * period <= T ->
     exists tt,
       terminations (log (observe T (pre ++ (tp, Pong) :: post))) = [tt] /\
       tp + period <= tt <= tp + 2 * period).
Proof.
  split; [reflexivity|]. split.
  - exact answering_peer_survives.
  - exact last_pong_latency.
Qed.

Lemma heartbeat_detection_latency_witness :
  terminations (log (observe 95000 [(30500, Pong); (61000, Pong)])) = [] /\
  exists tt,
    terminations
      (log (observe 200000
              ([(30500, Pong)] ++ (61000, Pong) :: [(70000, Message [])])))
      = [tt] /\
    61000 + period <= tt <= 61000 + 2 * period.
Proof.
  destruct heartbeat_detection_latency as (_ & Hlive & Hdead). split.
  - apply Hlive.
    + reflexivity.
    + intros t a [H|[H|[]]]; injection H as <- _; lia.
    + intros k Hk HT. unfold period in *.
      assert (Hcases : k = 1 \/ k = 2) by lia.
      destruct Hcases as [-> | ->].
      * exists 30500. split; [left; reflexivity|lia].
      * exists 61000. split; [right; left; reflexivity|lia].
  - apply Hdead.
    + reflexivity.
    + reflexivity.
    + reflexivity.
    + unfold period. lia.
Defined.

End Timeline.

(* ===================================================================== *)
(** ** Properties of the shutdown handler *)
(* ===================================================================== *)

Section Shutdown.
Import Js Proc.
Local Open Scope Z_scope.

#[local] Arguments advance : simpl never.

(** What each handler does to a process that lives. *)
Lemma dispatch_signal (s : signal) (p : proc) :
  exited p = None ->
  dispatch (Signal s) p =
  mkProc (now p) false (clients p) (wss_listeners p ++ [OnWssClosed])
    (server_listeners p) (timers p ++ [(now p + 10000, OnForceTimeout)]) None
    (trace p ++ (pair (now p) <$> drain_entry)).
Proof. destruct p; simpl; intros ->; reflexivity. Qed.

Lemma dispatch_uncaughtException (p : proc) :
  exited p = None ->
  dispatch UncaughtException p =
  mkProc (now p) false (clients p) (wss_listeners p ++ [OnWssClosed])
    (server_listeners p) (timers p ++ [(now p + 10000, OnForceTimeout)]) None
    (trace p ++ (pair (now p) <$> ConsoleErr "Uncaught Exception:" :: drain_entry)).
Proof. destruct p; simpl; intros ->; reflexivity. Qed.

Lemma dispatch_unhandledRejection (p : proc) :
  exited p = None ->
  dispatch UnhandledRejection p =
  mkProc (now p) (accepting p) (clients p) (wss_listeners p)
    (server_listeners p) (timers p) None
    (trace p ++ [(now p, ConsoleErr "Unhandled Rejection at:")]).
Proof. destruct p; simpl; intros ->; reflexivity. Qed.

Lemma exec_exited (m : M unit) (p : proc) (c : Z) :
  exited p = Some c -> exec m p = p.
Proof. unfold exec. intros ->. reflexivity. Qed.

Lemma exec_on_wss_closed (p : proc) :
  exited p = None ->
  exec (call OnWssClosed) p =
  mkProc (now p) (accepting p) (clients p) (wss_listeners p)
    (server_listeners p ++ [OnServerClosed]) (timers p) None
    (trace p ++ [(now p, Console "WebSocket server closed"); (now p, ServerClose)]).
Proof. destruct p; simpl; intros ->; reflexivity. Qed.

Lemma exec_on_server_closed (p : proc) :
  exited p = None ->
  exec (call OnServerClosed) p =
  mkProc (now p) (accepting p) (clients p) (wss_listeners p)
    (server_listeners p) (timers p) (Some 0)
    (trace p ++ [(now p, Console "HTTP server closed"); (now p, Exit 0)]).
Proof. destruct p; simpl; intros ->; reflexivity. Qed.

Lemma dispatch_wss_closed_one (p : proc) :
  exited p = None -> wss_listeners p = [OnWssClosed] ->
  dispatch WssClosed p =
  mkProc (now p) (accepting p) (clients p) []
    (server_listeners p ++ [OnServerClosed]) (timers p) None
    (trace p ++ [(now p, Console "WebSocket server closed"); (now p, ServerClose)]).
Proof. destruct p; simpl; intros -> ->; reflexivity. Qed.

Lemma dispatch_server_closed_one (p : proc) :
  exited p = None -> server_listeners p = [OnServerClosed] ->
  dispatch ServerClosed p =
  mkProc (now p) (accepting p) (clients p) (wss_listeners p) []
    (timers p) (Some 0)
    (trace p ++ [(now p, Console "HTTP server closed"); (now p, Exit 0)]).
Proof. destruct p; simpl; intros -> ->; reflexivity. Qed.

Lemma dispatch_exited (e : event) (p : proc) (c : Z) :
  exited p = Some c -> dispatch e p = p.
Proof. unfold dispatch. intros ->. reflexivity. Qed.

(** C8 fails as stated: after an unhandled rejection the process is not in
    the drain a signal starts; the server still accepts, no timeout is
    pending, and the process is still alive long after. *)
Lemma unhandled_rejection_starts_no_drain :
  ~ same_drain (dispatch UnhandledRejection boot) (dispatch (Signal SIGTERM) boot) /\
  accepting (dispatch UnhandledRejection boot) = true /\
  timers (dispatch UnhandledRejection boot) = [] /\
  actions (observe 3600000 [(0, UnhandledRejection)])
    = [ConsoleErr "Unhandled Rejection at:"] /\
  exited (observe 3600000 [(0, UnhandledRejection)]) = None.
Proof.
  split; [|repeat split].
  intros (_ & Hacc & _). discriminate Hacc.
Qed.

(** C8, amended.  An uncaught exception is logged and then starts the drain
    a termination signal starts: the same calls in the same order, the same
    resulting state.  An unhandled rejection is logged and nothing else: no
    drain, no exit, the state of the process is what it was. *)
Theorem uncaught_exception_drains (p : proc) (s : signal) :
  exited p = None ->
  (same_drain (dispatch UncaughtException p) (dispatch (Signal s) p) /\
   actions (dispatch UncaughtException p)
     = actions p ++ ConsoleErr "Uncaught Exception:" :: drain_entry) /\
  (same_drain (dispatch UnhandledRejection p) p /\
   actions (dispatch UnhandledRejection p)
     = actions p ++ [ConsoleErr "Unhandled Rejection at:"]).
Proof.
  intros Hlive.
  rewrite dispatch_uncaughtException, dispatch_signal, dispatch_unhandledRejection
    by exact Hlive.
  unfold same_drain, actions. cbn [now accepting clients wss_listeners
    server_listeners timers exited trace].
  rewrite !fmap_app. repeat split. symmetry. exact Hlive.
Qed.

Lemma uncaught_exception_drains_witness :
  same_drain (dispatch UncaughtException boot) (dispatch (Signal SIGINT) boot) /\
  same_drain (dispatch UnhandledRejection boot) boot.
Proof.
  destruct (uncaught_exception_drains boot SIGINT eq_refl) as [[H1 _] [H2 _]].
  split; [exact H1|exact H2].
Defined.

(** *** The clock of the process *)

Lemma earliest_in (ts : list (Z * callback)) (d : Z) (cb : callback) :
  earliest ts = Some (d, cb) ->
  In (d, cb) ts /\ forall d' cb', In (d', cb') ts -> d <= d'.
Proof.
  revert d cb; induction ts as [|[d0 cb0] ts IH]; intros d cb H; [discriminate|].
  simpl in H. destruct (earliest ts) as [[d1 cb1]|] eqn:E.
  - destruct (IH d1 cb1 eq_refl) as [Hin Hmin].
    destruct (Z.ltb_spec d1 d0); injection H as <- <-.
    + split; [right; exact Hin|].
      intros d' cb' [Heq|Hin']; [injection Heq as <- _; lia|eauto].
    + split; [left; reflexivity|].
      intros d' cb' [Heq|Hin']; [injection Heq as <- _; lia|].
      specialize (Hmin d' cb' Hin'). lia.
  - injection H as <- <-. destruct ts as [|[d1 cb1] ts].
    + split; [left; reflexivity|].
      intros d' cb' [Heq|[]]. injection Heq as <- _. lia.
    + simpl in E. destruct (earliest ts) as [[d2 cb2]|];
        [destruct (d2 <? d1)|]; discriminate E.
Qed.

Lemma earliest_none (ts : list (Z * callback)) :
  earliest ts = None -> ts = [].
Proof.
  destruct ts as [|[d cb] ts]; [reflexivity|]. simpl.
  destruct (earliest ts) as [[d' cb']|]; [destruct (d' <? d)|]; discriminate.
Qed.

(** A process that has exited does nothing more. *)
Lemma advance_exited (t : Z) (p : proc) (c : Z) :
  exited p = Some c -> advance t p = p.
Proof.
  intros H. unfold advance.
  assert (Hfd : fire_due (List.length (timers p)) t p = p).
  { destruct (List.length (timers p)); simpl; [|rewrite H]; reflexivity. }
  rewrite Hfd, H. reflexivity.
Qed.

(** No timeout is due: the clock moves and nothing else. *)
Lemma advance_idle (t : Z) (p : proc) :
  exited p = None ->
  (forall d cb, In (d, cb) (timers p) -> t < d) ->
  advance t p =
  mkProc (Z.max (now p) t) (accepting p) (clients p) (wss_listeners p)
    (server_listeners p) (timers p) None (trace p).
Proof.
  intros Hlive Hlater. unfold advance.
  assert (Hfd : fire_due (List.length (timers p)) t p = p).
  { destruct (List.length (timers p)); simpl; [reflexivity|]. rewrite Hlive.
    destruct (earliest (timers p)) as [[d cb]|] eqn:E; [|reflexivity].
    destruct (earliest_in _ _ _ E) as [Hin _]. specialize (Hlater d cb Hin).
    destruct (Z.leb_spec d t); [lia|reflexivity]. }
  rewrite Hfd, Hlive. reflexivity.
Qed.

(** The safety valve is due: the process exits with status 1, at the time the
    timeout was due. *)
Lemma advance_forced (t d : Z) (p : proc) :
  exited p = None ->
  earliest (timers p) = Some (d, OnForceTimeout) ->
  d <= t ->
  advance t p =
  mkProc (Z.max (now p) d) (accepting p) (clients p) (wss_listeners p)
    (server_listeners p) (remove_timer d OnForceTimeout (timers p)) (Some 1)
    (trace p ++
     [(Z.max (now p) d,
       ConsoleErr "Could not close connections in time, forcefully shutting down");
      (Z.max (now p) d, Exit 1)]).
Proof.
  intros Hlive Hearly Hdue. unfold advance.
  destruct (timers p) as [|x ts] eqn:Hts; [discriminate Hearly|].
  cbn [List.length fire_due]. rewrite Hlive, Hts, Hearly.
  destruct (Z.leb_spec d t); [|lia].
  unfold fire. rewrite Hts.
  set (q := exec _ _).
  assert (Hq : exited q = Some 1).
  { unfold q, exec. cbn [exited]. rewrite Hlive. reflexivity. }
  assert (Hfd : fire_due (List.length ts) t q = q).
  { destruct (List.length ts); simpl; [|rewrite Hq]; reflexivity. }
  rewrite Hfd, Hq. unfold q, exec. cbn [exited]. rewrite Hlive. reflexivity.
Qed.

(** C7 fails as stated: with one socket open, the entry into the drain makes
    the three calls of [shutdown] and no call on the socket, which stays
    open. *)
Lemma shutdown_leaves_sockets_open :
  let p0 := dispatch Upgrade boot in
  let p1 := dispatch (Signal SIGTERM) p0 in
  clients p0 = [Conn.connected] /\
  Conn.readyState Conn.connected = Conn.OPEN /\
  clients p1 = [Conn.connected] /\
  actions p1
    = OnClient 0 (Conn.ConsoleLog "New WebSocket connection established")
      :: drain_entry /\
  ~ closes_every_live_client p0 p1.
Proof.
  repeat split. intros H.
  destruct (H 0%nat Conn.connected eq_refl eq_refl) as (c' & Hc' & Hopen).
  injection Hc' as <-. apply Hopen. reflexivity.
Qed.

(** C7, amended.  On a termination signal received by a process that is not
    draining yet, [shutdown] makes three calls in this order: the log line,
    [wss.close] (the WebSocket server stops taking upgrades), and
    [setTimeout] with 10 000 ms; it makes no call on the open sockets, which
    are left as they are.  On the success path, when the WebSocket server
    then reports its close the callback calls [server.close], and when the
    HTTP server reports its close the process exits with status 0. *)
Theorem drain_entry_and_success_path (p : proc) (s : signal) (t0 t1 t2 : Z) :
  exited p = None -> timers p = [] ->
  wss_listeners p = [] -> server_listeners p = [] ->
  now p <= t0 -> t0 <= t1 -> t1 <= t2 -> t2 < t0 + 10000 ->
  let p1 := handle (t0, Signal s) p in
  let p3 := run_timed [(t1, WssClosed); (t2, ServerClosed)] p1 in
  (trace p1 = trace p ++ (pair t0 <$> drain_entry) /\
   accepting p1 = false /\ clients p1 = clients p /\
   timers p1 = [(t0 + 10000, OnForceTimeout)] /\ exited p1 = None) /\
  (trace p3 = trace p1 ++
     [(t1, Console "WebSocket server closed"); (t1, ServerClose);
      (t2, Console "HTTP server closed"); (t2, Exit 0)] /\
   clients p3 = clients p /\ exited p3 = Some 0).
Proof.
  intros Hlive Htimers Hwss Hsrv H0 H1 H2 H3.
  destruct p as [n acc cl wl sl tm ex trc]. simpl in *. subst.
  unfold run_timed, handle. cbn [fold_left fst snd].
  rewrite advance_idle; [|reflexivity|intros d cb []].
  cbn [now accepting clients wss_listeners server_listeners timers trace].
  rewrite dispatch_signal by reflexivity.
  cbn [now accepting clients wss_listeners server_listeners timers trace app].
  replace (Z.max n t0) with t0 by lia.
  split; [repeat split|].
  rewrite (advance_idle t1);
    [|reflexivity|simpl; intros d cb [H|[]]; injection H as <- _; lia].
  cbn [now accepting clients wss_listeners server_listeners timers trace].
  replace (Z.max t0 t1) with t1 by lia.
  rewrite dispatch_wss_closed_one by reflexivity.
  cbn [now accepting clients wss_listeners server_listeners timers trace app].
  rewrite (advance_idle t2);
    [|reflexivity|simpl; intros d cb [H|[]]; injection H as <- _; lia].
  cbn [now accepting clients wss_listeners server_listeners timers trace].
  replace (Z.max t1 t2) with t2 by lia.
  rewrite dispatch_server_closed_one by reflexivity.
  cbn [now accepting clients wss_listeners server_listeners timers trace
       exited].
  rewrite <- !app_assoc. repeat split.
Qed.

Lemma drain_entry_and_success_path_witness :
  let p1 := handle (5, Signal SIGTERM) boot in
  let p3 := run_timed [(100, WssClosed); (200, ServerClosed)] p1 in
  actions p1 = drain_entry /\ exited p3 = Some 0.
Proof.
  intros p1 p3. subst p1 p3.
  destruct (drain_entry_and_success_path boot SIGTERM 5 100 200)
    as [(Htrace & _) (_ & _ & Hexit)];
    try reflexivity; try (simpl; lia).
  split; [|exact Hexit]. unfold actions. rewrite Htrace. reflexivity.
Defined.

(** *** What every reachable state satisfies *)

Lemma count_app (f : action -> bool) (l1 l2 : list action) :
  count f (l1 ++ l2) = (count f l1 + count f l2)%nat.
Proof. unfold count. rewrite List.filter_app, List.length_app. reflexivity. Qed.

Lemma actions_trace_app (p : proc) (tr : list (Z * action)) (new : list (Z * action)) :
  trace p = tr ++ new -> actions p = (snd <$> tr) ++ (snd <$> new).
Proof. unfold actions. intros ->. apply fmap_app. Qed.

Lemma count_exit_client (t : Z) (i : nat) (w : list Conn.effect) :
  count is_exit (snd <$> (pair t <$> (OnClient i <$> w))) = 0%nat.
Proof. induction w as [|e w IH]; [reflexivity|exact IH]. Qed.

(** A step that keeps the process alive: the clock stands, new timeouts are
    safety valves due later, and no exit is called. *)
Lemma sane_grow (p q : proc) (new : list (Z * action)) :
  sane p -> exited p = None ->
  now q = now p -> exited q = None ->
  (forall d cb, In (d, cb) (timers q) ->
     In (d, cb) (timers p) \/ (cb = OnForceTimeout /\ now p < d)) ->
  trace q = trace p ++ new -> count is_exit (snd <$> new) = 0%nat ->
  sane q.
Proof.
  intros [Htm Hex] Hlive Hnow Hlive' Htm' Htr Hnew. rewrite Hlive in Hex.
  unfold sane. rewrite Hlive', Hnow. split.
  - intros d cb Hin. destruct (Htm' d cb Hin) as [Hold|[-> Hlt]].
    + destruct (Htm d cb Hold) as [Hcb Hlt]. split; [exact Hcb|]. intros _. auto.
    + split; [reflexivity|]. intros _. exact Hlt.
  - rewrite (actions_trace_app q _ _ Htr), count_app. fold (actions p). lia.
Qed.

(** A step that calls [process.exit]. *)
Lemma sane_exit (p q : proc) (c : Z) (new : list (Z * action)) :
  sane p -> exited p = None ->
  exited q = Some c ->
  (forall d cb, In (d, cb) (timers q) -> In (d, cb) (timers p)) ->
  trace q = trace p ++ new -> count is_exit (snd <$> new) = 1%nat ->
  In (now q, Exit c) new ->
  sane q.
Proof.
  intros [Htm Hex] Hlive Hexit Htm' Htr Hnew Hin. rewrite Hlive in Hex.
  unfold sane. rewrite Hexit. split.
  - intros d cb Hd. destruct (Htm d cb (Htm' d cb Hd)) as [Hcb _].
    split; [exact Hcb|discriminate].
  - split.
    + rewrite (actions_trace_app q _ _ Htr), count_app. fold (actions p). lia.
    + rewrite Htr, in_app_iff. right. exact Hin.
Qed.

Lemma in_app_one {A} (x y : A) (l : list A) :
  In x (l ++ [y]) -> In x l \/ x = y.
Proof. rewrite in_app_iff. simpl. intros [H|[H|[]]]; auto. Qed.

(** Every callback keeps the state sane, leaves the clock where it is and
    cancels no timeout. *)
Lemma exec_call_facts (cb : callback) (p : proc) :
  sane p ->
  sane (exec (call cb) p) /\ now (exec (call cb) p) = now p /\
  (forall x, In x (timers p) -> In x (timers (exec (call cb) p))).
Proof.
  intros Hp. destruct (exited p) as [c|] eqn:Hlive.
  - rewrite (exec_exited _ p c Hlive). auto.
  - destruct cb.
    + rewrite exec_on_wss_closed by exact Hlive. split; [|auto].
      eapply (sane_grow p); [exact Hp|exact Hlive|reflexivity|reflexivity|
                             intros d cb Hin; left; exact Hin|reflexivity|reflexivity].
    + rewrite exec_on_server_closed by exact Hlive. split; [|auto].
      eapply (sane_exit p _ 0); [exact Hp|exact Hlive|reflexivity|
                                 intros d cb Hin; exact Hin|reflexivity|reflexivity|].
      right. left. reflexivity.
    + assert (Heq : exec (call OnForceTimeout) p =
         mkProc (now p) (accepting p) (clients p) (wss_listeners p)
           (server_listeners p) (timers p) (Some 1)
           (trace p ++
            [(now p, ConsoleErr "Could not close connections in time, forcefully shutting down");
             (now p, Exit 1)])).
      { destruct p; simpl in *; subst; reflexivity. }
      rewrite Heq. split; [|auto].
      eapply (sane_exit p _ 1); [exact Hp|exact Hlive|reflexivity|
                                 intros d cb Hin; exact Hin|reflexivity|reflexivity|].
      right. left. reflexivity.
Qed.

Lemma exec_all_facts (cbs : list callback) (p : proc) :
  sane p ->
  sane (exec_all cbs p) /\ now (exec_all cbs p) = now p /\
  (forall x, In x (timers p) -> In x (timers (exec_all cbs p))).
Proof.
  revert p; induction cbs as [|cb cbs IH]; intros p Hp; [auto|].
  destruct (exec_call_facts cb p Hp) as (Hs & Hn & Ht).
  destruct (IH _ Hs) as (Hs' & Hn' & Ht').
  change (exec_all (cb :: cbs) p) with (exec_all cbs (exec (call cb) p)).
  split; [exact Hs'|]. split; [congruence|auto].
Qed.

(** The same for the delivery of any event. *)
Lemma dispatch_facts (e : event) (p : proc) :
  sane p ->
  sane (dispatch e p) /\ now (dispatch e p) = now p /\
  (forall x, In x (timers p) -> In x (timers (dispatch e p))).
Proof.
  intros Hp. destruct (exited p) as [c|] eqn:Hlive.
  - rewrite (dispatch_exited e p c Hlive). auto.
  - assert (Hpos : forall d cb, In (d, cb) (timers p ++ [(now p + 10000, OnForceTimeout)]) ->
                     In (d, cb) (timers p) \/ (cb = OnForceTimeout /\ now p < d)).
    { intros d cb Hin. apply in_app_one in Hin. destruct Hin as [Hin|Heq]; [auto|].
      injection Heq as -> ->. right. split; [reflexivity|lia]. }
    destruct e as [s| | | | | |i e].
    + rewrite dispatch_signal by exact Hlive. split.
      * eapply (sane_grow p); [exact Hp|exact Hlive|reflexivity|reflexivity|
                               exact Hpos|reflexivity|reflexivity].
      * split; [reflexivity|]. intros x Hin. simpl. rewrite in_app_iff. auto.
    + rewrite dispatch_uncaughtException by exact Hlive. split.
      * eapply (sane_grow p); [exact Hp|exact Hlive|reflexivity|reflexivity|
                               exact Hpos|reflexivity|reflexivity].
      * split; [reflexivity|]. intros x Hin. simpl. rewrite in_app_iff. auto.
    + rewrite dispatch_unhandledRejection by exact Hlive. split; [|auto].
      eapply (sane_grow p); [exact Hp|exact Hlive|reflexivity|reflexivity|
                             intros d cb Hin; left; exact Hin|reflexivity|reflexivity].
    + unfold dispatch. rewrite Hlive. unfold emit_wss_closed.
      match goal with |- context [exec_all ?cbs ?q] =>
        destruct (exec_all_facts cbs q Hp) as (Hs & Hn & Ht) end.
      split; [exact Hs|]. split; [exact Hn|exact Ht].
    + unfold dispatch. rewrite Hlive. unfold emit_server_closed.
      match goal with |- context [exec_all ?cbs ?q] =>
        destruct (exec_all_facts cbs q Hp) as (Hs & Hn & Ht) end.
      split; [exact Hs|]. split; [exact Hn|exact Ht].
    + unfold dispatch. rewrite Hlive. unfold emit_connection.
      destruct (accepting p); [|auto]. split; [|auto].
      eapply (sane_grow p); [exact Hp|exact Hlive|reflexivity|exact Hlive|
                             intros d cb Hin; left; exact Hin|reflexivity|].
      apply count_exit_client.
    + unfold dispatch. rewrite Hlive. unfold emit_client.
      destruct (clients p !! i); [|auto]. split; [|auto].
      eapply (sane_grow p); [exact Hp|exact Hlive|reflexivity|exact Hlive|
                             intros d cb Hin; left; exact Hin|reflexivity|].
      apply count_exit_client.
Qed.

Lemma remove_timer_in (d : Z) (cb : callback) (ts : list (Z * callback))
      (x : Z * callback) :
  In x (remove_timer d cb ts) -> In x ts.
Proof.
  induction ts as [|[d' cb'] ts IH]; simpl; [tauto|].
  destruct ((d' =? d) && callback_eqb cb' cb); simpl; tauto.
Qed.

(** Time passes over a process that lives: either no timeout is due and only
    the clock moves, or the earliest timeout, the safety valve, runs and the
    process exits with status 1 at the time that timeout was due. *)
Lemma advance_cases (t : Z) (p : proc) :
  sane p -> exited p = None ->
  ((forall d cb, In (d, cb) (timers p) -> t < d) /\
   advance t p =
   mkProc (Z.max (now p) t) (accepting p) (clients p) (wss_listeners p)
     (server_listeners p) (timers p) None (trace p)) \/
  (exists d,
     In (d, OnForceTimeout) (timers p) /\
     (forall d' cb', In (d', cb') (timers p) -> d <= d') /\ d <= t /\
     advance t p =
     mkProc (Z.max (now p) d) (accepting p) (clients p) (wss_listeners p)
       (server_listeners p) (remove_timer d OnForceTimeout (timers p)) (Some 1)
       (trace p ++
        [(Z.max (now p) d,
          ConsoleErr "Could not close connections in time, forcefully shutting down");
         (Z.max (now p) d, Exit 1)])).
Proof.
  intros [Htm _] Hlive.
  destruct (earliest (timers p)) as [[d cb]|] eqn:E.
  - destruct (earliest_in _ _ _ E) as [Hin Hmin].
    destruct (Htm d cb Hin) as [-> _].
    destruct (Z.le_gt_cases d t) as [Hdue|Hlater].
    + right. exists d. repeat split; try assumption.
      apply advance_forced; assumption.
    + left. assert (Hall : forall d' cb', In (d', cb') (timers p) -> t < d').
      { intros d' cb' Hin'. specialize (Hmin d' cb' Hin'). lia. }
      split; [exact Hall|]. apply advance_idle; assumption.
  - left. apply earliest_none in E.
    assert (Hall : forall d' cb', In (d', cb') (timers p) -> t < d').
    { rewrite E. intros d' cb' []. }
    split; [exact Hall|]. apply advance_idle; assumption.
Qed.

Lemma advance_facts (t : Z) (p : proc) :
  sane p ->
  sane (advance t p) /\ (now p <= t -> now (advance t p) <= t) /\
  (exited (advance t p) = None -> now (advance t p) = Z.max (now p) t).
Proof.
  intros Hp. destruct (exited p) as [c|] eqn:Hlive.
  - rewrite (advance_exited t p c Hlive). split; [exact Hp|]. split; [auto|].
    congruence.
  - destruct (advance_cases t p Hp Hlive) as [[Hall ->]|(d & Hin & Hmin & Hdue & ->)].
    + split; [|split; [simpl; lia|reflexivity]].
      destruct Hp as [Htm Hex]. rewrite Hlive in Hex. unfold sane. cbn.
      split; [|exact Hex].
      intros d cb Hin. destruct (Htm d cb Hin) as [Hcb Hlt].
      specialize (Hall d cb Hin). specialize (Hlt Hlive).
      split; [exact Hcb|]. intros _. lia.
    + split; [|split; [simpl; lia|discriminate]].
      eapply (sane_exit p _ 1); [exact Hp|exact Hlive|reflexivity| |reflexivity|
                                 reflexivity|right; left; reflexivity].
      intros d' cb' Hin'. apply (remove_timer_in _ _ _ _ Hin').
Qed.

Lemma handle_facts (te : Z * event) (p : proc) :
  sane p ->
  sane (handle te p) /\ (now p <= fst te -> now (handle te p) <= fst te).
Proof.
  intros Hp. destruct (advance_facts (fst te) p Hp) as (Hs & Hle & _).
  destruct (dispatch_facts (snd te) _ Hs) as (Hs' & Hn & _).
  unfold handle. split; [exact Hs'|]. rewrite Hn. exact Hle.
Qed.

Lemma proc_run_cons (te : Z * event) (tr : list (Z * event)) (p : proc) :
  Proc.run_timed (te :: tr) p = Proc.run_timed tr (handle te p).
Proof. reflexivity. Qed.

Lemma sane_run (tr : list (Z * event)) (p : proc) :
  sane p -> sane (Proc.run_timed tr p).
Proof.
  revert p; induction tr as [|te tr IH]; intros p Hp; [exact Hp|].
  rewrite proc_run_cons. apply IH, handle_facts, Hp.
Qed.

Lemma sane_boot : sane boot.
Proof. split; [intros d cb []|reflexivity]. Qed.

(** At most one call of [process.exit], whatever happens. *)
Lemma at_most_one_exit (tr : list (Z * event)) (T : Z) :
  (count is_exit (actions (Proc.observe T tr)) <= 1)%nat.
Proof.
  assert (Hs : sane (Proc.observe T tr)).
  { apply advance_facts, sane_run, sane_boot. }
  destruct Hs as [_ Hex]. destruct (exited (Proc.observe T tr)); lia.
Qed.

(** *** The drain is bounded *)







(** *** Without the close of the WebSocket server, the exit is the forced
    one *)






(** C5 fails as stated: with a socket open, two termination signals in
    immediate succession run the entry actions twice; both the listener
    close and the timeout start happen two times.  (With no socket open the
    WebSocket server reports its close on the next tick of the event loop,
    before a second signal can be handled; the socket keeps the first drain
    from completing.) *)
Lemma second_signal_repeats_drain :
  let p := Proc.observe 12000
             [(500, Upgrade); (1000, Signal SIGTERM); (1000, Signal SIGTERM)] in
  (exists c, clients p !! 0%nat = Some c /\ Conn.readyState c = Conn.OPEN) /\
  count is_wss_close (actions p) = 2%nat /\
  count is_set_timeout (actions p) = 2%nat /\
  ~ (count is_wss_close (actions p) = 1%nat /\
     count is_set_timeout (actions p) = 1%nat).
Proof.
  split; [exists Conn.connected; split; reflexivity|].
  split; [reflexivity|]. split; [reflexivity|].
  intros [H _]. discriminate H.
Qed.

(** C5, amended.  [shutdown] has no guard: every termination signal received
    while the process lives makes the three entry calls again.  So with a
    socket open, which keeps the WebSocket server from reporting its close,
    two signals in immediate succession give two listener closes and two
    timeout starts ([t0] is the time of the upgrade, [t] the time of the
    signals; the forced exit comes before the first run of the socket's
    interval).  The process still exits exactly once (here by the timeout,
    with status 1, the socket still open), and in no run does it call
    [process.exit] more than once. *)
Theorem repeated_signal_repeats_drain :
  (forall (p : proc) (s : signal),
     exited p = None ->
     actions (dispatch (Signal s) p) = actions p ++ drain_entry) /\
  (forall (s1 s2 : signal) (t0 t T : Z),
     0 <= t0 <= t -> t < t0 + 20000 -> t + 10000 <= T ->
     let p := Proc.observe T [(t0, Upgrade); (t, Signal s1); (t, Signal s2)] in
     actions p =
       OnClient 0 (Conn.ConsoleLog "New WebSocket connection established") ::
       drain_entry ++ drain_entry ++
       [ConsoleErr "Could not close connections in time, forcefully shutting down";
        Exit 1] /\
     count is_wss_close (actions p) = 2%nat /\
     count is_set_timeout (actions p) = 2%nat /\
     count is_exit (actions p) = 1%nat /\
     exited p = Some 1 /\
     clients p = [Conn.connected] /\
     Conn.readyState Conn.connected = Conn.OPEN) /\
  (forall (tr : list (Z * event)) (T : Z),
     (count is_exit (actions (Proc.observe T tr)) <= 1)%nat).
Proof.
  split; [|split].
  - intros p s Hlive. rewrite dispatch_signal by exact Hlive.
    unfold actions. cbn [trace]. rewrite fmap_app. reflexivity.
  - intros s1 s2 t0 t T Ht0 Hfirst HT p.
    assert (Hp : actions p =
       OnClient 0 (Conn.ConsoleLog "New WebSocket connection established") ::
       drain_entry ++ drain_entry ++
       [ConsoleErr "Could not close connections in time, forcefully shutting down";
        Exit 1] /\ exited p = Some 1 /\ clients p = [Conn.connected]).
    { unfold p, Proc.observe, Proc.run_timed, handle. cbn [fold_left fst snd].
      rewrite (advance_idle t0 boot); [|reflexivity|intros d cb []].
      cbn [now accepting clients wss_listeners server_listeners timers trace
           boot].
      replace (Z.max 0 t0) with t0 by lia.
      change (dispatch Upgrade (mkProc t0 true [] [] [] [] None []))
        with (mkProc t0 true [Conn.connected] [] [] [] None
                [(t0, OnClient 0
                        (Conn.ConsoleLog "New WebSocket connection established"))]).
      rewrite (advance_idle t
                 (mkProc t0 true [Conn.connected] [] [] [] None
                    [(t0, OnClient 0
                            (Conn.ConsoleLog "New WebSocket connection established"))]));
        [|reflexivity|intros d cb []].
      cbn [now accepting clients wss_listeners server_listeners timers trace].
      replace (Z.max t0 t) with t by lia.
      rewrite (dispatch_signal s1) by reflexivity.
      cbn [now accepting clients wss_listeners server_listeners timers trace app].
      rewrite (advance_idle t);
        [|reflexivity|simpl; intros d cb [H|[]]; injection H as <- _; lia].
      cbn [now accepting clients wss_listeners server_listeners timers trace].
      rewrite (dispatch_signal s2) by reflexivity.
      cbn [now accepting clients wss_listeners server_listeners timers trace app].
      replace (Z.max t t) with t by lia.
      rewrite (advance_forced T (t + 10000));
        [|reflexivity|simpl; rewrite Z.ltb_irrefl; reflexivity|lia].
      repeat split. }
    destruct Hp as (Hp & Hexit & Hsock). rewrite Hp.
    repeat split; assumption.
  - exact at_most_one_exit.
Qed.

Lemma repeated_signal_repeats_drain_witness :
  count is_wss_close
    (actions (Proc.observe 20000
                [(100, Upgrade); (5000, Signal SIGTERM); (5000, Signal SIGINT)]))
  = 2%nat /\
  count is_exit
    (actions (Proc.observe 20000
                [(100, Upgrade); (5000, Signal SIGTERM); (5000, Signal SIGINT)]))
  = 1%nat /\
  clients (Proc.observe 20000
             [(100, Upgrade); (5000, Signal SIGTERM); (5000, Signal SIGINT)])
  = [Conn.connected] /\
  actions (dispatch (Signal SIGINT) (handle (100, Upgrade) boot))
  = actions (handle (100, Upgrade) boot) ++ drain_entry.
Proof.
  destruct repeated_signal_repeats_drain as (Hentry & Htwice & _).
  destruct (Htwice SIGTERM SIGINT 100 5000 20000)
    as (_ & Hclose & _ & Hexit & _ & Hsock & _); [lia|lia|lia|].
  split; [exact Hclose|]. split; [exact Hexit|]. split; [exact Hsock|].
  apply Hentry. reflexivity.
Defined.

End Shutdown.

(* ===================================================================== *)
(** ** The heartbeat interval over the life of a connection *)
(* ===================================================================== *)

Section Cancellation.
Import Js Proc.
Local Open Scope Z_scope.

#[local] Arguments advance : simpl never.













End Cancellation.

(* ===================================================================== *)
(** ** JSON text written and read back *)
(* ===================================================================== *)

Section RoundTrip.
Import Js JsLib.

Lemma hex_val_digit (d : N) : d < 16 -> hex_val (hex_digit d) = Some d.
Proof.
  intros H. unfold hex_val, hex_digit, is_digit.
  destruct (N.ltb_spec d 10).
  - replace ((48 <=? 48 + d) && (48 + d <=? 57)) with true.
    + f_equal. lia.
    + symmetry. apply andb_true_iff. split; apply N.leb_le; lia.
  - replace ((48 <=? 87 + d) && (87 + d <=? 57)) with false.
    + replace ((65 <=? 87 + d) && (87 + d <=? 70)) with false.
      * replace ((97 <=? 87 + d) && (87 + d <=? 102)) with true.
        -- f_equal. lia.
        -- symmetry. apply andb_true_iff. split; apply N.leb_le; lia.
      * symmetry. apply andb_false_iff. right. apply N.leb_gt. lia.
    + symmetry. apply andb_false_iff. right. apply N.leb_gt. lia.
Qed.

Lemma nibbles (c : N) :
  c < 65536 ->
  4096 * (c / 4096 mod 16) + 256 * (c / 256 mod 16) + 16 * (c / 16 mod 16)
  + c mod 16 = c.
Proof.
  intros H.
  pose proof (N.div_mod c 16 ltac:(lia)) as H1.
  pose proof (N.div_mod (c / 16) 16 ltac:(lia)) as H2.
  pose proof (N.div_mod (c / 16 / 16) 16 ltac:(lia)) as H3.
  rewrite !N.Div0.div_div in H2, H3.
  change (16 * 16) with 256 in *.
  rewrite N.Div0.div_div in H3. change (256 * 16) with 4096 in H3.
  assert (H4 : c / 4096 < 16) by (apply N.Div0.div_lt_upper_bound; lia).
  rewrite (N.mod_small (c / 4096) 16) by exact H4.
  pose proof (N.mod_upper_bound c 16 ltac:(lia)).
  pose proof (N.mod_upper_bound (c / 16) 16 ltac:(lia)).
  pose proof (N.mod_upper_bound (c / 256) 16 ltac:(lia)).
  lia.
Qed.


Lemma parse_chars_u (a b c d : N) (tail : jsstring) :
  parse_chars (92 :: 117 :: a :: b :: c :: d :: tail) =
  (x ← hex_val a; y ← hex_val b; z ← hex_val c; w ← hex_val d;
   '(str, rest) ← parse_chars tail;
   Some ((4096 * x + 256 * y + 16 * z + w) :: str, rest)).
Proof. reflexivity. Qed.

Lemma parse_chars_plain (c : N) (tail : jsstring) :
  (c =? 34) = false -> (c =? 92) = false -> (c <? 32) = false ->
  parse_chars (c :: tail) =
  ('(str, rest) ← parse_chars tail; Some (c :: str, rest)).
Proof. intros H1 H2 H3. simpl. rewrite H1, H2, H3. reflexivity. Qed.

Lemma parse_escape_u (c : N) (tail : jsstring) :
  c < 65536 ->
  parse_chars (escape_u c ++ tail) =
  ('(str, rest) ← parse_chars tail; Some (c :: str, rest)).
Proof.
  intros H. unfold escape_u. cbn [app]. rewrite parse_chars_u.
  rewrite !hex_val_digit by (apply N.mod_upper_bound; lia).
  cbn [mbind option_bind]. rewrite nibbles by exact H. reflexivity.
Qed.

(** [JSON.parse] reads back the characters [JSON.stringify] wrote for a
    string, up to the closing quote. *)
Lemma parse_quote_chars (s rest : jsstring) :
  code_units s ->
  parse_chars (quote_chars s ++ 34 :: rest) = Some (s, rest).
Proof.
  remember (List.length s) as n eqn:Hn. revert s rest Hn.
  induction n as [n IH] using lt_wf_ind. intros s rest Hn Hs.
  destruct s as [|c r]; [reflexivity|].
  unfold code_units in *.
  pose proof (List.Forall_inv Hs) as Hc. pose proof (List.Forall_inv_tail Hs) as Hr.
  simpl in Hc, Hn.
  assert (IHr : forall rest', parse_chars (quote_chars r ++ 34 :: rest') = Some (r, rest')).
  { intros rest'. apply (IH (List.length r)); [lia|reflexivity|exact Hr]. }
  cbn [quote_chars].
  destruct (N.eqb_spec c 8) as [->|H8]; [cbn [app]; simpl; rewrite IHr; reflexivity|].
  destruct (N.eqb_spec c 9) as [->|H9]; [cbn [app]; simpl; rewrite IHr; reflexivity|].
  destruct (N.eqb_spec c 10) as [->|H10]; [cbn [app]; simpl; rewrite IHr; reflexivity|].
  destruct (N.eqb_spec c 12) as [->|H12]; [cbn [app]; simpl; rewrite IHr; reflexivity|].
  destruct (N.eqb_spec c 13) as [->|H13]; [cbn [app]; simpl; rewrite IHr; reflexivity|].
  destruct (N.eqb_spec c 34) as [->|H34]; [cbn [app]; simpl; rewrite IHr; reflexivity|].
  destruct (N.eqb_spec c 92) as [->|H92]; [cbn [app]; simpl; rewrite IHr; reflexivity|].
  destruct (N.ltb_spec c 32) as [H32|H32].
  { rewrite <- app_assoc, parse_escape_u by exact Hc. rewrite IHr. reflexivity. }
  assert (Hplain : forall tail, parse_chars (c :: tail) =
            ('(str, rest) ← parse_chars tail; Some (c :: str, rest))).
  { intros tail. apply parse_chars_plain.
    - apply N.eqb_neq. exact H34.
    - apply N.eqb_neq. exact H92.
    - apply N.ltb_ge. exact H32. }
  destruct (is_high_surrogate c) eqn:Hhigh.
  - destruct r as [|d r'].
    + rewrite parse_escape_u by exact Hc. reflexivity.
    + destruct (is_low_surrogate d) eqn:Hlow.
      * cbn [app]. rewrite Hplain.
        pose proof (List.Forall_inv_tail Hr) as Hr'. simpl in Hn.
        assert (Hdplain : parse_chars (d :: quote_chars r' ++ 34 :: rest) =
            ('(str, rest0) ← parse_chars (quote_chars r' ++ 34 :: rest);
             Some (d :: str, rest0))).
        { unfold is_low_surrogate in Hlow. apply andb_true_iff in Hlow.
          destruct Hlow as [Hlo _]. apply N.leb_le in Hlo.
          apply parse_chars_plain.
          - apply N.eqb_neq. lia.
          - apply N.eqb_neq. lia.
          - apply N.ltb_ge. lia. }
        rewrite Hdplain.
        rewrite (IH (List.length r')); [reflexivity|lia|reflexivity|exact Hr'].
      * rewrite <- app_assoc, parse_escape_u by exact Hc. rewrite IHr. reflexivity.
  - destruct (is_low_surrogate c).
    + rewrite <- app_assoc, parse_escape_u by exact Hc. rewrite IHr. reflexivity.
    + cbn [app]. rewrite Hplain, IHr. reflexivity.
Qed.


#[local] Arguments parse_chars : simpl never.
#[local] Arguments quote_chars : simpl never.
#[local] Arguments parse_value : simpl never.
#[local] Arguments parse_members : simpl never.
#[local] Arguments stringify_members : simpl never.
#[local] Arguments quote : simpl never.

Lemma parse_value_quote (f : nat) (s rest : jsstring) :
  code_units s ->
  parse_value (S f) (quote s ++ rest) = Some (JString s, rest).
Proof.
  intros Hs. unfold quote. cbn [app]. rewrite <- app_assoc. cbn [app].
  unfold parse_value; fold parse_members; fold parse_elements. cbn [skip_ws is_ws].
  simpl. rewrite parse_quote_chars by exact Hs. reflexivity.
Qed.

Lemma parse_members_key (f : nat) (k tail : jsstring) :
  code_units k ->
  parse_members (S f) (quote k ++ 58 :: tail) =
  ('(v, r3) ← parse_value f tail;
   match skip_ws r3 with
   | [] => None
   | sep :: r4 =>
       if sep =? 44 then
         '(ms, r5) ← parse_members f r4; Some ((k, v) :: ms, r5)
       else if sep =? 125 then Some ([(k, v)], r4)
       else None
   end).
Proof.
  intros Hk. unfold quote. cbn [app]. rewrite <- app_assoc. cbn [app].
  unfold parse_members at 1; fold parse_value; fold parse_members.
  simpl. rewrite parse_quote_chars by exact Hk. reflexivity.
Qed.

Lemma parse_stringify_members (o : list (jsstring * jsstring)) (rest : jsstring)
      (f : nat) :
  o <> [] -> strings_ok o -> (List.length o < f)%nat ->
  parse_members f (stringify_members o ++ 125 :: rest)
  = Some ((fun kv => (fst kv, JString (snd kv))) <$> o, rest).
Proof.
  revert f; induction o as [|[k v] o IH]; intros f Hne Hok Hf; [congruence|].
  pose proof (List.Forall_inv Hok) as [Hk Hv].
  pose proof (List.Forall_inv_tail Hok) as Hok'. simpl in Hk, Hv, Hf.
  destruct f as [|[|f]]; [lia|lia|].
  destruct o as [|kv o].
  - change (stringify_members [(k, v)]) with (quote k ++ 58 :: quote v).
    rewrite <- app_assoc. cbn [app].
    rewrite parse_members_key by exact Hk.
    rewrite parse_value_quote by exact Hv. reflexivity.
  - assert (Htext : stringify_members ((k, v) :: kv :: o) =
                    quote k ++ 58 :: quote v ++ 44 :: stringify_members (kv :: o)).
    { destruct kv. reflexivity. }
    rewrite Htext. rewrite <- app_assoc. cbn [app]. rewrite <- app_assoc. cbn [app].
    rewrite parse_members_key by exact Hk.
    rewrite parse_value_quote by exact Hv.
    cbn [mbind option_bind skip_ws is_ws]. simpl.
    rewrite (IH (S f)); [reflexivity|discriminate|exact Hok'|simpl in *; lia].
Qed.

Lemma parse_value_object (f : nat) (tail : jsstring) :
  parse_value (S f) (123 :: 34 :: tail) =
  ('(ms, rest) ← parse_members f (34 :: tail); Some (JObject ms, rest)).
Proof. reflexivity. Qed.

(** X1.  [JSON.parse] reads back what [JSON.stringify] writes for a record
    of strings (as the frames and the JSON bodies of the server are): the
    same members with the same values, in the same order, whatever
    characters the strings hold. *)
Theorem stringify_parse_round_trip (o : list (jsstring * jsstring)) :
  strings_ok o -> JSON_parse (JSON_stringify o) = Ok (as_json o).
Proof.
  intros Hok.
  apply (JSON_parse_complete _ (S (S (List.length o))) _ []); [|reflexivity].
  unfold JSON_stringify, as_json.
  destruct o as [|[k v] o]; [reflexivity|].
  assert (Hstart : exists tail, stringify_members ((k, v) :: o) = 34 :: tail).
  { destruct o as [|[k' v'] o]; eexists; reflexivity. }
  destruct Hstart as [tail Htail].
  rewrite Htail. cbn [app]. rewrite parse_value_object.
  change (34 :: tail ++ [125]) with ((34 :: tail) ++ 125 :: []).
  rewrite <- Htail.
  rewrite parse_stringify_members; [reflexivity|discriminate|exact Hok|simpl; lia].
Qed.

Lemma code_units_lit (s : string) : code_units (lit s).
Proof.
  unfold code_units, lit. apply List.Forall_forall. intros c Hc.
  apply list_elem_of_In, list_elem_of_fmap in Hc. destruct Hc as (a & -> & _).
  pose proof (N_ascii_bounded a). lia.
Qed.

Lemma stringify_parse_round_trip_witness :
  strings_ok [(lit "message", [34; 92; 10; 55357; 56832; 56832; 233])] /\
  JSON_parse (JSON_stringify [(lit "message", [34; 92; 10; 55357; 56832; 56832; 233])])
  = Ok (as_json [(lit "message", [34; 92; 10; 55357; 56832; 56832; 233])]).
Proof.
  assert (H : strings_ok [(lit "message", [34; 92; 10; 55357; 56832; 56832; 233])]).
  { repeat constructor. }
  split; [exact H|]. apply (stringify_parse_round_trip _ H).
Defined.

End RoundTrip.


(* ===================================================================== *)
(** ** Properties of the HTTP handlers *)
(* ===================================================================== *)

Section Handlers.
Import Js JsLib Express.
Local Open Scope Z_scope.

Lemma startsWith_spec (s p : jsstring) :
  startsWith s p = true <-> exists rest, s = p ++ rest.
Proof.
  revert s; induction p as [|x p IH]; intros s.
  - split; [intros _; exists s; reflexivity|destruct s; reflexivity].
  - destruct s as [|y s]; simpl.
    + split; [discriminate|intros [rest H]; discriminate H].
    + rewrite andb_true_iff, N.eqb_eq, IH. split.
      * intros [-> [rest ->]]. exists rest. reflexivity.
      * intros [rest H]. injection H as -> ->. split; [reflexivity|eauto].
Qed.

Lemma includes_spec (s sub : jsstring) :
  includes s sub = true <-> exists pre post, s = pre ++ sub ++ post.
Proof.
  split.
  - induction s as [|c s IH].
    + change (includes [] sub) with (startsWith [] sub || false).
      rewrite orb_true_iff. intros [H|H]; [|discriminate].
      apply startsWith_spec in H. destruct H as [rest H].
      exists [], rest. exact H.
    + change (includes (c :: s) sub)
        with (startsWith (c :: s) sub || includes s sub).
      rewrite orb_true_iff. intros [H|H].
      * apply startsWith_spec in H. destruct H as [rest H].
        exists [], rest. exact H.
      * destruct (IH H) as (pre & post & ->). exists (c :: pre), post.
        reflexivity.
  - intros (pre & post & ->). induction pre as [|c pre IH].
    + assert (H : startsWith (sub ++ post) sub = true)
        by (apply startsWith_spec; eauto).
      cbn [app]. destruct (sub ++ post) as [|c l].
      * change (includes [] sub) with (startsWith [] sub || false).
        rewrite H. reflexivity.
      * change (includes (c :: l) sub)
          with (startsWith (c :: l) sub || includes l sub).
        rewrite H. reflexivity.
    + change (includes ((c :: pre) ++ sub ++ post) sub)
        with (startsWith ((c :: pre) ++ sub ++ post) sub
              || includes (pre ++ sub ++ post) sub).
      rewrite IH. apply orb_true_r.
Qed.

(** X2.  The error handler of index.ts answers 404 "File Not Found" exactly
    for the errors whose message has ENOENT somewhere in it, whatever the
    error is otherwise, and 500 "Internal Server Error" for every other
    error. *)
Theorem static_error_handler_status (err : Error) (x : exchange) :
  headersSent x = false ->
  ((exists pre post, message err = pre ++ lit "ENOENT" ++ post) ->
   snd (static_error_handler err x)
   = Respond (mkResponse 404 (TextBody (lit "File Not Found")))) /\
  (~ (exists pre post, message err = pre ++ lit "ENOENT" ++ post) ->
   snd (static_error_handler err x)
   = Respond (mkResponse 500 (TextBody (lit "Internal Server Error")))).
Proof.
  intros Hfresh. unfold static_error_handler, reply_text.
  destruct (includes (message err) (lit "ENOENT")) eqn:E; cbn [snd];
    rewrite Hfresh.
  - split; [reflexivity|]. intros Hno. exfalso. apply Hno.
    apply includes_spec. exact E.
  - split; [|reflexivity]. intros Hin. apply includes_spec in Hin. congruence.
Qed.

Lemma static_error_handler_status_witness :
  snd (static_error_handler
         (mkError (lit "MongoError") (lit "connect ENOENT /tmp/db.sock"))
         (mkExchange (lit "/api/users") false))
  = Respond (mkResponse 404 (TextBody (lit "File Not Found"))).
Proof.
  apply (static_error_handler_status
           (mkError (lit "MongoError") (lit "connect ENOENT /tmp/db.sock"))
           (mkExchange (lit "/api/users") false) eq_refl).
  exists (lit "connect "), (lit " /tmp/db.sock"). reflexivity.
Defined.

(** X3.  The fallback route hands the request on, without touching the
    response, exactly when the path begins with the four characters /api
    (so also for a path such as /apiary); every other path is answered with
    index.html or, when sending it fails, with the error passed on. *)
Theorem spa_fallback_passes_api (x : exchange) (sent : option Error) :
  snd (spa_fallback x sent) = Next <-> exists rest, path x = lit "/api" ++ rest.
Proof.
  rewrite <- startsWith_spec. unfold spa_fallback.
  destruct (startsWith (path x) (lit "/api")); simpl.
  - split; reflexivity.
  - destruct sent; simpl; split; discriminate.
Qed.

Lemma spa_fallback_passes_api_witness :
  snd (spa_fallback (mkExchange (lit "/apiary/bees") false) None) = Next.
Proof.
  apply (spa_fallback_passes_api (mkExchange (lit "/apiary/bees") false) None).
  exists (lit "ary/bees"). reflexivity.
Defined.

(** X4.  In production [errorHandler] keeps the message of an error out of
    the response unless the error is a ValidationError: the outcome is the
    same whatever the message is. *)
Theorem errorHandler_hides_message (node_env : option jsstring) (err : Error)
        (other : jsstring) (x : exchange) :
  is_production node_env = true ->
  name err <> lit "ValidationError" ->
  snd (errorHandler node_env (mkError (name err) other) x)
  = snd (errorHandler node_env err x).
Proof.
  intros Hprod Hname. unfold errorHandler. simpl.
  destruct (str_eqb (name err) (lit "ValidationError")) eqn:E.
  - apply str_eqb_eq in E. congruence.
  - rewrite Hprod. reflexivity.
Qed.

Lemma errorHandler_hides_message_witness :
  snd (errorHandler (Some (lit "production"))
         (mkError (lit "TypeError") (lit "secret is undefined"))
         (mkExchange (lit "/api/x") false))
  = snd (errorHandler (Some (lit "production"))
           (mkError (lit "TypeError") (lit "password=hunter2"))
           (mkExchange (lit "/api/x") false)).
Proof.
  apply (errorHandler_hides_message (Some (lit "production"))
           (mkError (lit "TypeError") (lit "password=hunter2"))
           (lit "secret is undefined") (mkExchange (lit "/api/x") false)).
  - reflexivity.
  - discriminate.
Defined.

(** X5.  Whatever the error, [errorHandler] answers with status 400, 401 or
    500 and a body that is JSON text: it parses back to a record with the
    two members [error] and [message], in this order.  For a
    ValidationError the status is 400 and [message] is the error's own
    message, in production too. *)
Theorem errorHandler_body (node_env : option jsstring) (err : Error)
        (x : exchange) :
  headersSent x = false -> code_units (message err) ->
  exists code text e m,
    snd (errorHandler node_env err x) = Respond (mkResponse code (JsonBody text)) /\
    JSON_parse text = Ok (as_json [(lit "error", e); (lit "message", m)]) /\
    (code = 400 \/ code = 401 \/ code = 500) /\
    (name err = lit "ValidationError" -> code = 400 /\ m = message err).
Proof.
  intros Hfresh Hmsg. unfold errorHandler, reply_json. simpl. rewrite Hfresh.
  assert (Hrt : forall e m, code_units m ->
            JSON_parse (JSON_stringify [(lit "error", lit e); (lit "message", m)])
            = Ok (as_json [(lit "error", lit e); (lit "message", m)])).
  { intros e m Hm. apply stringify_parse_round_trip.
    repeat constructor; simpl; auto using code_units_lit. }
  destruct (str_eqb (name err) (lit "ValidationError")) eqn:E1.
  - eexists _, _, _, _. split; [reflexivity|]. split; [apply Hrt, Hmsg|].
    split; [left; reflexivity|]. intros _. split; reflexivity.
  - assert (Hne : name err <> lit "ValidationError").
    { intros H. apply str_eqb_eq in H. congruence. }
    destruct (str_eqb (name err) (lit "UnauthorizedError")).
    + eexists _, _, _, _. split; [reflexivity|].
      split; [apply Hrt, code_units_lit|].
      split; [right; left; reflexivity|]. intros H. contradiction.
    + eexists _, _, _, _. split; [reflexivity|]. split.
      * apply Hrt. destruct (is_production node_env);
          [apply code_units_lit|exact Hmsg].
      * split; [right; right; reflexivity|]. intros H. contradiction.
Qed.

Lemma errorHandler_body_witness :
  exists code text e m,
    snd (errorHandler None
           (mkError (lit "ValidationError") [34%N; 233%N; 10%N; 55357%N])
           (mkExchange (lit "/api/x") false))
    = Respond (mkResponse code (JsonBody text)) /\
    JSON_parse text = Ok (as_json [(lit "error", e); (lit "message", m)]) /\
    (code = 400 \/ code = 401 \/ code = 500) /\
    (lit "ValidationError" = lit "ValidationError" ->
     code = 400 /\ m = [34%N; 233%N; 10%N; 55357%N]).
Proof.
  apply (errorHandler_body None
           (mkError (lit "ValidationError") [34%N; 233%N; 10%N; 55357%N])
           (mkExchange (lit "/api/x") false) eq_refl).
  repeat constructor.
Defined.

(** X6.  As the handlers are registered, the error handler of index.ts
    answers every error before [errorHandler] can see it: when the response
    is not started, the request ends with its plain-text 404 or 500, and
    [errorHandler] does not run, so that no error gets the 400 or 401 or
    the JSON body of [errorHandler].  When the response is started already,
    both handlers run, none can answer, and the error is left to the
    framework. *)
Theorem static_handler_shadows_errorHandler (node_env : option jsstring)
        (err : Error) (x : exchange) :
  (headersSent x = false ->
   exists r,
     handle_error (error_chain node_env) err x
     = (fst (static_error_handler err x), Some r) /\
     snd (static_error_handler err x) = Respond r /\
     (status r = 404 \/ status r = 500) /\
     (exists text, body r = TextBody text)) /\
  (headersSent x = true ->
   handle_error (error_chain node_env) err x
   = (fst (static_error_handler err x)
      ++ fst (errorHandler node_env headers_sent_error x), None)).
Proof.
  unfold error_chain, handle_error, static_error_handler, errorHandler,
    reply_text, reply_json. split; intros Hx; rewrite Hx.
  - destruct (includes (message err) (lit "ENOENT")); simpl;
      eexists; (split; [reflexivity|]); (split; [reflexivity|]);
      simpl; eauto.
  - destruct (includes (message err) (lit "ENOENT")); reflexivity.
Qed.

Lemma static_handler_shadows_errorHandler_witness :
  exists r,
    handle_error (error_chain (Some (lit "production")))
      (mkError (lit "ValidationError") (lit "email is required"))
      (mkExchange (lit "/api/users") false)
    = ([ErrorLine "Static file error:" None], Some r) /\
    status r = 500 /\
  handle_error (error_chain None)
    (mkError (lit "Error") (lit "write EPIPE"))
    (mkExchange (lit "/") true)
  = ([ErrorLine "Static file error:" None;
      ErrorLine "Error:" (Some (message headers_sent_error));
      ErrorLine "Stack:" None], None).
Proof.
  destruct (static_handler_shadows_errorHandler (Some (lit "production"))
              (mkError (lit "ValidationError") (lit "email is required"))
              (mkExchange (lit "/api/users") false)) as [H _].
  destruct (H eq_refl) as (r & Hrun & Hr & _).
  exists r. split; [exact Hrun|]. split.
  - simpl in Hr. injection Hr as <-. reflexivity.
  - apply (static_handler_shadows_errorHandler None
             (mkError (lit "Error") (lit "write EPIPE"))
             (mkExchange (lit "/") true)).
    reflexivity.
Defined.

End Handlers.

(* ===================================================================== *)
(** ** Properties of a connection over a whole conversation *)
(* ===================================================================== *)

Section Conversation.
Import Js Conn Watch.

Lemma run_from_cons (e : event) (tr : list event) (c : conn) :
  run_from c (e :: tr) =
  (fst (run_from (step e c) tr),
   effects_of (deliver e c) ++ snd (run_from (step e c) tr)).
Proof.
  simpl. unfold step. destruct (run_from (state_of (deliver e c)) tr).
  reflexivity.
Qed.

Lemma run_from_app (tr1 tr2 : list event) (c : conn) :
  run_from c (tr1 ++ tr2) =
  (fst (run_from (fst (run_from c tr1)) tr2),
   snd (run_from c tr1) ++ snd (run_from (fst (run_from c tr1)) tr2)).
Proof.
  revert c; induction tr1 as [|e tr1 IH]; intros c.
  - simpl. destruct (run_from c tr2). reflexivity.
  - cbn [app]. rewrite !run_from_cons, IH. cbn [fst snd].
    rewrite app_assoc. reflexivity.
Qed.

(** What one delivery sends: nothing unless it is a message, and then at
    most one frame. *)
Lemma sent_by_delivery (e : event) (c : conn) :
  (List.length (sent (effects_of (deliver e c)))
   <= if is_message e then 1 else 0)%nat.
Proof.
  rewrite deliver_unfold. destruct e as [| | | |message]; cbn [is_message].
  - unfold effects_of; simpl; lia.
  - destruct (heartbeat c); [destruct (isAlive c)|]; unfold effects_of; simpl; lia.
  - unfold effects_of; simpl; lia.
  - unfold effects_of; simpl; lia.
  - rewrite on_message_cases.
    destruct (JSON_parse message) as [data|]; [|unfold effects_of; simpl; lia].
    destruct (get_type data) as [ty|]; [|unfold effects_of; simpl; lia].
    destruct (strict_eq_string ty (lit "pong")); unfold effects_of; simpl; lia.
Qed.

(** X7.  The server sends a frame only in answer to a message, and at most
    one per message: over any sequence of events, from any state of the
    connection, the frames sent are no more than the messages received.
    Neither the heartbeat nor a pong, a close or an error makes it send. *)
Theorem frames_answer_messages (tr : list event) (c : conn) :
  (List.length (sent (snd (run_from c tr)))
   <= List.length (List.filter is_message tr))%nat.
Proof.
  revert c; induction tr as [|e tr IH]; intros c; [simpl; lia|].
  rewrite run_from_cons. cbn [snd]. unfold sent. rewrite omap_app.
  fold (sent (effects_of (deliver e c))).
  fold (sent (snd (run_from (step e c) tr))).
  rewrite List.length_app. specialize (IH (step e c)).
  pose proof (sent_by_delivery e c) as He. cbn [List.filter].
  destruct (is_message e); simpl; lia.
Qed.

Lemma message_is_inert (message : jsstring) (c : conn) :
  step (EMessage message) c = c /\
  supervision (effects_of (deliver (EMessage message) c)) = [].
Proof.
  unfold step. rewrite deliver_unfold, on_message_state. split; [reflexivity|].
  rewrite on_message_cases.
  destruct (JSON_parse message) as [data|]; [|reflexivity].
  destruct (get_type data) as [ty|]; [|reflexivity].
  destruct (strict_eq_string ty (lit "pong")); reflexivity.
Qed.

(** X8.  Application messages, the pong message included, play no part in
    the supervision: with the messages taken out of any sequence of events,
    the connection ends in the same state ([isAlive], interval, socket) and
    the supervisor makes the same calls ([ws.ping], [ws.terminate],
    [clearInterval]) in the same order. *)
Theorem messages_never_supervise (tr : list event) (c : conn) :
  fst (run_from c (without_messages tr)) = fst (run_from c tr) /\
  supervision (snd (run_from c (without_messages tr)))
  = supervision (snd (run_from c tr)).
Proof.
  revert c; induction tr as [|e tr IH]; intros c; [split; reflexivity|].
  unfold without_messages in *. cbn [List.filter].
  destruct (is_message e) eqn:Em; cbn [negb].
  - destruct e as [| | | |message]; try discriminate Em.
    rewrite run_from_cons. cbn [fst snd].
    destruct (message_is_inert message c) as [Hstate Hcalls].
    rewrite Hstate. unfold supervision in *. rewrite List.filter_app.
    rewrite Hcalls. apply IH.
  - rewrite !run_from_cons. cbn [fst snd]. unfold supervision in *.
    rewrite !List.filter_app.
    destruct (IH (step e c)) as [-> ->]. split; reflexivity.
Qed.

Lemma quiet_step (e : event) (c : conn) :
  heartbeat c = false ->
  heartbeat (step e c) = false /\
  ~ In Ping (effects_of (deliver e c)) /\
  ~ In Terminate (effects_of (deliver e c)).
Proof.
  intros Hc. destruct (cleared_step e c Hc) as [Hh Ht].
  split; [exact Hh|]. split; [|exact Ht].
  rewrite deliver_unfold. destruct e as [| | | |message]; try rewrite Hc;
    unfold effects_of; simpl;
    try (intros H; repeat (destruct H as [H|H]; [discriminate H|]); exact H).
  fold (effects_of (on_message message c)). rewrite on_message_cases.
  destruct (JSON_parse message) as [data|];
    [destruct (get_type data) as [ty|];
     [destruct (strict_eq_string ty (lit "pong"))|]|];
    unfold effects_of; simpl;
    intros H; repeat (destruct H as [H|H]; [discriminate H|]); exact H.
Qed.

Lemma quiet_run (tr : list event) (c : conn) :
  heartbeat c = false ->
  ~ In Ping (snd (run_from c tr)) /\ ~ In Terminate (snd (run_from c tr)).
Proof.
  revert c; induction tr as [|e tr IH]; intros c Hc.
  - split; intros [].
  - destruct (quiet_step e c Hc) as (Hh & Hp & Ht).
    destruct (IH _ Hh) as [Hp' Ht'].
    rewrite run_from_cons. cbn [snd]. rewrite !in_app_iff. tauto.
Qed.

(** X9.  Once a close or an error event was delivered, the supervisor makes
    no further call on the socket: whatever events follow, neither
    [ws.ping()] nor [ws.terminate()] is called again. *)
Theorem no_probe_after_removal (pre post : list event) (e : event) (c : conn) :
  e = EClose \/ e = EError ->
  let c' := fst (run_from c (pre ++ [e])) in
  ~ In Ping (snd (run_from c' post)) /\ ~ In Terminate (snd (run_from c' post)).
Proof.
  intros He c'. apply quiet_run. unfold c'.
  rewrite run_from_app. cbn [fst]. rewrite run_from_cons. cbn [fst].
  destruct He as [-> | ->]; reflexivity.
Qed.

Lemma no_probe_after_removal_witness :
  let c' := fst (run_from connected ([ETick; EPong] ++ [EError])) in
  ~ In Ping (snd (run_from c' [ETick; EMessage (lit "x"); ETick; EClose])) /\
  ~ In Terminate (snd (run_from c' [ETick; EMessage (lit "x"); ETick; EClose])).
Proof.
  apply (no_probe_after_removal [ETick; EPong]
           [ETick; EMessage (lit "x"); ETick; EClose] EError connected).
  right. reflexivity.
Defined.

End Conversation.

(* ===================================================================== *)
(** ** More on the heartbeat supervisor on the clock *)
(* ===================================================================== *)

Section Vigil.
Import Js Conn Heartbeat WatchClock.
Local Open Scope Z_scope.

#[local] Arguments handle : simpl never.
#[local] Arguments advance : simpl never.
#[local] Arguments fire : simpl never.
#[local] Arguments deliver_now : simpl never.

(** X10.  Application messages do not count as answers to the probes, the
    pong message included: a peer from which nothing but messages arrives,
    however many, is terminated at the second run of the interval, 60 000 ms
    after the connection was made, and only then. *)
Theorem messages_do_not_keep_alive (tr : list (Z * arrival)) (T : Z) :
  silent tr = true -> 2 * period <= T ->
  terminations (log (observe T tr)) = [60000].
Proof. intros Hs HT. apply (never_answering_latency tr T Hs HT). Qed.

Lemma messages_do_not_keep_alive_witness :
  terminations
    (log (observe 75000 [(1000, Message pong_text); (29000, Message pong_text);
                         (59000, Message pong_text)])) = [60000].
Proof.
  apply (messages_do_not_keep_alive
           [(1000, Message pong_text); (29000, Message pong_text);
            (59000, Message pong_text)] 75000).
  - reflexivity.
  - unfold period. lia.
Defined.

Lemma on_grid_fire (w : world) : on_grid w -> on_grid (fire w).
Proof.
  intros ([k [Hk Hnext]] & Harmed & Hlen & Hgrid).
  rewrite fire_unfold.
  destruct (heartbeat (sock w)) eqn:Ha; [destruct (isAlive (sock w)) eqn:Hl|];
    unfold on_grid; cbn [next_tick sock log heartbeat isAlive];
    unfold period in *.
  - destruct (Harmed eq_refl) as [Hnone _].
    split; [exists (k + 1); split; lia|].
    rewrite terminations_app, Hnone. cbn.
    split; [intros _; split; [reflexivity|intros _; lia]|].
    split; [lia|intros tt []].
  - destruct (Harmed eq_refl) as [Hnone Htwo]. specialize (Htwo eq_refl).
    split; [exists (k + 1); split; lia|].
    split; [discriminate|].
    rewrite terminations_app, Hnone. cbn.
    split; [lia|]. intros tt [<-|[]]. exists k. split; lia.
  - split; [exists (k + 1); split; lia|].
    split; [intros; congruence|]. split; assumption.
Qed.

Lemma on_grid_handle (ta : Z * arrival) (w : world) :
  on_grid w -> on_grid (handle ta w).
Proof.
  intros Hw. unfold handle.
  assert (Hadv : on_grid (advance (fst ta) w)).
  { apply (advance_ind (fst ta) on_grid); [|auto|exact Hw].
    intros w' _. apply on_grid_fire. }
  destruct Hadv as (Hk & Harmed & Hlen & Hgrid).
  unfold on_grid. rewrite deliver_now_terminations.
  unfold deliver_now at 1 2 3. cbn [next_tick sock].
  fold (step (event_of (snd ta)) (sock (advance (fst ta) w))).
  destruct (arrival_step (snd ta) (sock (advance (fst ta) w))) as (_ & Harm & Hflag).
  split; [exact Hk|]. split; [|split; assumption].
  intros Ha. destruct (Harmed (Harm Ha)) as [Hnone Htwo].
  split; [exact Hnone|]. intros Hdead. apply Htwo, Hflag, Hdead.
Qed.

(** X11.  Whatever arrives and whenever, the supervisor terminates a socket
    at most once, never at the first run of the interval, and only at a run
    of the interval: a multiple of 30 000 ms, 60 000 ms at the earliest. *)
Theorem at_most_one_termination (tr : list (Z * arrival)) (T : Z) :
  (List.length (terminations (log (observe T tr))) <= 1)%nat /\
  (forall tt, In tt (terminations (log (observe T tr))) ->
     exists k, 2 <= k /\ tt = 30000 * k).
Proof.
  assert (H : on_grid (observe T tr)).
  { unfold observe.
    assert (Hrun : forall w, on_grid w -> on_grid (run_timed tr w)).
    { induction tr as [|ta tr IH]; intros w Hw; [exact Hw|].
      rewrite run_timed_cons. apply IH, on_grid_handle, Hw. }
    apply (advance_ind T on_grid); [intros w' _; apply on_grid_fire|auto|].
    apply Hrun. unfold on_grid, start. cbn. unfold period.
    split; [exists 1; split; lia|].
    split; [intros _; split; [reflexivity|discriminate]|].
    split; [simpl; lia|simpl; intros tt []]. }
  destruct H as (_ & _ & Hlen & Hgrid). split; [exact Hlen|exact Hgrid].
Qed.

Lemma now_advance_eq (t : Z) (w : world) :
  now w <= t -> now (advance t w) = t.
Proof.
  intros Hle. pose proof (now_advance_ge t w) as Hlo.
  assert (Hhi : now (advance t w) <= t); [|lia].
  apply (advance_ind t (fun w' => now w' <= t)).
  - intros w' Hdue _. rewrite fire_unfold.
    destruct (heartbeat (sock w')); [destruct (isAlive (sock w'))|];
      cbn [now]; exact Hdue.
  - intros w' _ Hle'. unfold settle. cbn [now]. lia.
  - exact Hle.
Qed.

Lemma sound_fire (done : list (Z * arrival)) (w : world) :
  sound_so_far done w -> sound_so_far done (fire w).
Proof.
  intros (Hnow & Hdone & Hprobe & Hterm). assert (Hpos := period_pos).
  rewrite fire_unfold.
  destruct (heartbeat (sock w)) eqn:Ha; [destruct (isAlive (sock w)) eqn:Hl|];
    unfold sound_so_far; cbn [now next_tick sock log heartbeat isAlive].
  - split; [lia|].
    split; [intros t a Hin; specialize (Hdone t a Hin); lia|].
    split; [intros _ _ t Hin; specialize (Hdone t Pong Hin); lia|].
    rewrite terminations_app. cbn. rewrite app_nil_r.
    intros tt Hin. destruct (Hterm tt Hin) as [Hle Hold]. split; [lia|exact Hold].
  - split; [lia|].
    split; [intros t a Hin; specialize (Hdone t a Hin); lia|].
    split; [discriminate|].
    rewrite terminations_app. cbn. intros tt Hin. rewrite in_app_iff in Hin.
    destruct Hin as [Hin|[<-|[]]].
    + destruct (Hterm tt Hin) as [Hle Hold]. split; [lia|exact Hold].
    + split; [lia|]. intros t Hin. left. apply (Hprobe eq_refl eq_refl t Hin).
  - split; [lia|].
    split; [intros t a Hin; specialize (Hdone t a Hin); lia|].
    split; [intros; congruence|].
    intros tt Hin. destruct (Hterm tt Hin) as [Hle Hold]. split; [lia|exact Hold].
Qed.

Lemma sound_advance (done : list (Z * arrival)) (t : Z) (w : world) :
  sound_so_far done w -> sound_so_far done (advance t w).
Proof.
  apply (advance_ind t (sound_so_far done)).
  - intros w' _. apply sound_fire.
  - intros w' Hlater (Hnow & Hdone & Hprobe & Hterm).
    unfold sound_so_far, settle. cbn [now next_tick sock log].
    split; [lia|].
    split; [intros t' a Hin; specialize (Hdone t' a Hin); lia|].
    split; [exact Hprobe|].
    intros tt Hin. destruct (Hterm tt Hin) as [Hle Hold]. split; [lia|exact Hold].
Qed.

Lemma sound_deliver (done : list (Z * arrival)) (a : arrival) (w : world) :
  sound_so_far done w ->
  sound_so_far (done ++ [(now w, a)]) (deliver_now (event_of a) w).
Proof.
  intros (Hnow & Hdone & Hprobe & Hterm).
  unfold sound_so_far. rewrite deliver_now_terminations.
  unfold deliver_now. cbn [now next_tick sock].
  fold (step (event_of a) (sock w)).
  destruct (arrival_step a (sock w)) as (_ & Harm & Hflag).
  split; [exact Hnow|].
  split.
  { intros t a' Hin. rewrite in_app_iff in Hin. destruct Hin as [Hin|[Heq|[]]].
    - apply (Hdone t a' Hin).
    - injection Heq as <- _. lia. }
  split.
  { intros Harmed Hdead t Hin. rewrite in_app_iff in Hin.
    destruct Hin as [Hin|[Heq|[]]].
    - apply (Hprobe (Harm Harmed) (Hflag Hdead) t Hin).
    - injection Heq as _ Ha. subst a. discriminate Hdead. }
  intros tt Hin. destruct (Hterm tt Hin) as [Hle Hold]. split; [exact Hle|].
  intros t Hin'. rewrite in_app_iff in Hin'. destruct Hin' as [Hin'|[Heq|[]]].
  - apply (Hold t Hin').
  - injection Heq as <- _. right. exact Hle.
Qed.

Lemma sound_run (rest done : list (Z * arrival)) (w : world) :
  sound_so_far done w -> chronological (now w) rest = true ->
  sound_so_far (done ++ rest) (run_timed rest w).
Proof.
  revert done w; induction rest as [|[t a] rest IH]; intros done w Hw Hch.
  - rewrite app_nil_r. exact Hw.
  - simpl in Hch. rewrite andb_true_iff, Z.leb_le in Hch. destruct Hch as [Hle Hch].
    rewrite run_timed_cons.
    pose proof (now_advance_eq t w Hle) as Hnow.
    pose proof (sound_deliver done a _ (sound_advance done t w Hw)) as Hstep.
    rewrite Hnow in Hstep.
    change (done ++ (t, a) :: rest) with (done ++ [(t, a)] ++ rest).
    rewrite app_assoc. apply IH.
    + exact Hstep.
    + unfold handle, deliver_now. cbn [now fst snd]. rewrite Hnow. exact Hch.
Qed.

(** X12.  The supervisor raises no false alarm: when it terminates the
    socket at time [tt], no pong arrived during the period before, from the
    probe at [tt - 30000] on.  (A pong that arrives at the very time of a run
    of the interval is handled after that run.) *)
Theorem no_false_alarm (tr : list (Z * arrival)) (T tt t : Z) :
  chronological 0 tr = true ->
  In tt (terminations (log (observe T tr))) ->
  In (t, Pong) tr ->
  t < tt - 30000 \/ tt <= t.
Proof.
  intros Hch Htt Hpong.
  assert (Hstart : sound_so_far [] start).
  { unfold sound_so_far, start. cbn [now next_tick sock log]. unfold period.
    split; [lia|]. split; [intros t' a []|].
    split; [discriminate|]. simpl. intros tt' []. }
  pose proof (sound_run tr [] start Hstart Hch) as Hrun.
  pose proof (sound_advance _ T _ Hrun) as (_ & _ & _ & Hterm).
  destruct (Hterm tt Htt) as [_ Hold]. apply (Hold t Hpong).
Qed.

Lemma no_false_alarm_witness :
  In 120000 (terminations
               (log (observe 130000 [(30500, Pong); (60000, Pong); (95000, Message [])]))) /\
  (60000 < 120000 - 30000 \/ 120000 <= 60000).
Proof.
  assert (Hin : In 120000 (terminations
               (log (observe 130000 [(30500, Pong); (60000, Pong); (95000, Message [])]))))
    by (left; reflexivity).
  split; [exact Hin|].
  apply (no_false_alarm [(30500, Pong); (60000, Pong); (95000, Message [])]
           130000 120000 60000); [reflexivity|exact Hin|].
  right. left. reflexivity.
Defined.

End Vigil.

(* ===================================================================== *)
(** ** More on the shutdown handler *)
(* ===================================================================== *)

Section Exits.
Import Js Proc WatchProc.
Local Open Scope Z_scope.

#[local] Arguments advance : simpl never.

Lemma idle_handle (te : Z * event) (p : proc) :
  requests_shutdown (snd te) = false -> idle p -> idle (handle te p).
Proof.
  intros He (Htm & Hwss & Hsrv & Hlive). unfold handle.
  rewrite advance_idle; [|exact Hlive|rewrite Htm; intros d cb []].
  destruct p as [n acc cl wl sl tm ex trc]. simpl in *. subst.
  destruct (snd te) as [s| | | | | |i e]; try discriminate He;
    unfold idle, dispatch, emit_client, emit_connection; cbn;
    try (repeat split; reflexivity).
  - destruct acc; cbn; repeat split; reflexivity.
  - destruct (cl !! i); cbn; repeat split; reflexivity.
Qed.

Lemma idle_run (tr : list (Z * event)) (p : proc) :
  (forall te, In te tr -> requests_shutdown (snd te) = false) ->
  idle p -> idle (Proc.run_timed tr p).
Proof.
  revert p; induction tr as [|te tr IH]; intros p Hno Hp; [exact Hp|].
  rewrite proc_run_cons. apply IH.
  - intros te' Hin. apply Hno. right. exact Hin.
  - apply idle_handle; [apply Hno; left; reflexivity|exact Hp].
Qed.

(** X13.  The process never exits on its own: if it has exited, a
    termination signal or an uncaught exception was received before.  No
    number of unhandled rejections, upgrades, socket events or close reports
    makes it exit. *)
Theorem exit_needs_request (tr : list (Z * event)) (T : Z) (c : Z) :
  exited (Proc.observe T tr) = Some c ->
  exists t e, In (t, e) tr /\ requests_shutdown e = true.
Proof.
  intros Hexit.
  destruct (existsb (fun te => requests_shutdown (snd te)) tr) eqn:E.
  - apply existsb_exists in E. destruct E as ([t e] & Hin & He). eauto.
  - exfalso.
    assert (Hno : forall te, In te tr -> requests_shutdown (snd te) = false).
    { intros te Hin. destruct (requests_shutdown (snd te)) eqn:He; [|reflexivity].
      assert (existsb (fun te => requests_shutdown (snd te)) tr = true)
        by (apply existsb_exists; eauto).
      congruence. }
    assert (Hidle : idle (Proc.run_timed tr boot)).
    { apply idle_run; [exact Hno|]. repeat split. }
    destruct Hidle as (Htm & _ & _ & Hlive).
    unfold Proc.observe in Hexit.
    rewrite advance_idle in Hexit; [|exact Hlive|rewrite Htm; intros d cb []].
    discriminate Hexit.
Qed.

Lemma exit_needs_request_witness :
  exists t e,
    In (t, e) [(10, Upgrade); (20, UnhandledRejection); (30, Signal SIGINT);
               (40, WssClosed); (50, ServerClosed)] /\
    requests_shutdown e = true.
Proof.
  apply (exit_needs_request
           [(10, Upgrade); (20, UnhandledRejection); (30, Signal SIGINT);
            (40, WssClosed); (50, ServerClosed)] 60 0).
  reflexivity.
Defined.

(** *** What the callbacks and the handlers add *)

Lemma exec_all_exited (cbs : list callback) (p : proc) (c : Z) :
  exited p = Some c -> exec_all cbs p = p.
Proof.
  revert p; induction cbs as [|cb cbs IH]; intros p H; [reflexivity|].
  change (exec_all (cb :: cbs) p) with (exec_all cbs (exec (call cb) p)).
  rewrite (exec_exited _ p c H). apply IH, H.
Qed.

Lemma exec_all_wss (cbs : list callback) (p : proc) :
  Forall (eq OnWssClosed) cbs -> exited p = None ->
  exited (exec_all cbs p) = None /\ now (exec_all cbs p) = now p /\
  timers (exec_all cbs p) = timers p /\
  wss_listeners (exec_all cbs p) = wss_listeners p /\
  (Forall (eq OnServerClosed) (server_listeners p) ->
   Forall (eq OnServerClosed) (server_listeners (exec_all cbs p))) /\
  exists new, trace (exec_all cbs p) = trace p ++ new /\
              forall te c, ~ In (te, Exit c) new.
Proof.
  revert p; induction cbs as [|cb cbs IH]; intros p Hk Hlive.
  - repeat split; auto. exists []. split; [symmetry; apply app_nil_r|intros te c []].
  - pose proof (List.Forall_inv Hk) as Hcb. simpl in Hcb. subst cb.
    pose proof (List.Forall_inv_tail Hk) as Hk'.
    change (exec_all (OnWssClosed :: cbs) p)
      with (exec_all cbs (exec (call OnWssClosed) p)).
    rewrite exec_on_wss_closed by exact Hlive.
    match goal with |- context [exec_all cbs ?q] =>
      destruct (IH q Hk' eq_refl) as (H1 & H2 & H3 & H4 & H5 & new & H6 & H7) end.
    cbn [now timers wss_listeners server_listeners trace exited] in *.
    repeat split; try assumption.
    + intros Hsrv. apply H5. apply Forall_app. split; [exact Hsrv|].
      constructor; [reflexivity|constructor].
    + eexists. split; [rewrite H6, <- app_assoc; reflexivity|].
      intros te c Hin. rewrite in_app_iff in Hin.
      destruct Hin as [[Hin|[Hin|[]]]|Hin]; try discriminate Hin.
      apply (H7 te c Hin).
Qed.

Lemma exec_all_server (cbs : list callback) (p : proc) :
  Forall (eq OnServerClosed) cbs -> exited p = None ->
  now (exec_all cbs p) = now p /\ timers (exec_all cbs p) = timers p /\
  wss_listeners (exec_all cbs p) = wss_listeners p /\
  server_listeners (exec_all cbs p) = server_listeners p /\
  exists new, trace (exec_all cbs p) = trace p ++ new /\
              forall te c, In (te, Exit c) new -> c = 0 /\ cbs <> [].
Proof.
  intros Hk Hlive. destruct cbs as [|cb cbs].
  - repeat split. exists []. split; [symmetry; apply app_nil_r|intros te c []].
  - pose proof (List.Forall_inv Hk) as Hcb. simpl in Hcb. subst cb.
    change (exec_all (OnServerClosed :: cbs) p)
      with (exec_all cbs (exec (call OnServerClosed) p)).
    rewrite exec_on_server_closed by exact Hlive.
    rewrite (exec_all_exited cbs _ 0) by reflexivity.
    cbn [now timers wss_listeners server_listeners trace].
    repeat split. eexists. split; [reflexivity|].
    intros te c [Hin|[Hin|[]]]; [discriminate Hin|].
    injection Hin as _ <-. split; [reflexivity|discriminate].
Qed.

Lemma no_exit_client (t : Z) (i : nat) (w : list Conn.effect) (te c : Z) :
  ~ In (te, Exit c) (pair t <$> (OnClient i <$> w)).
Proof. induction w as [|e w IH]; [intros []|]. intros [H|H]; [discriminate H|auto]. Qed.

(** The delivery of an event to a process that lives: what it does to the
    listeners, to the pending timeouts and to the calls made. *)
Lemma dispatch_shape (e : event) (p : proc) :
  kinds p -> exited p = None ->
  kinds (dispatch e p) /\ now (dispatch e p) = now p /\
  timers (dispatch e p)
  = timers p ++ (if requests_shutdown e then [(now p + 10000, OnForceTimeout)]
                 else []) /\
  (server_listeners (dispatch e p) <> [] ->
   server_listeners p <> [] \/ e = WssClosed) /\
  exists new, trace (dispatch e p) = trace p ++ new /\
    forall te c, In (te, Exit c) new ->
      c = 0 /\ e = ServerClosed /\ server_listeners p <> [].
Proof.
  intros [Hwss Hsrv] Hlive.
  destruct e as [s| | | | | |i e]; cbn [requests_shutdown].
  - rewrite dispatch_signal by exact Hlive. unfold kinds.
    cbn [now timers wss_listeners server_listeners trace].
    split; [split; [apply Forall_app; split; [exact Hwss|repeat constructor]|exact Hsrv]|].
    repeat split; [tauto|]. eexists. split; [reflexivity|].
    intros te c Hin. cbn in Hin.
    repeat (destruct Hin as [Hin|Hin]; [discriminate Hin|]). destruct Hin.
  - rewrite dispatch_uncaughtException by exact Hlive. unfold kinds.
    cbn [now timers wss_listeners server_listeners trace].
    split; [split; [apply Forall_app; split; [exact Hwss|repeat constructor]|exact Hsrv]|].
    repeat split; [tauto|]. eexists. split; [reflexivity|].
    intros te c Hin. cbn in Hin.
    repeat (destruct Hin as [Hin|Hin]; [discriminate Hin|]). destruct Hin.
  - rewrite dispatch_unhandledRejection by exact Hlive. unfold kinds.
    cbn [now timers wss_listeners server_listeners trace]. rewrite app_nil_r.
    split; [split; assumption|]. repeat split; [tauto|].
    eexists. split; [reflexivity|].
    intros te c [Hin|[]]. discriminate Hin.
  - unfold dispatch. rewrite Hlive. unfold emit_wss_closed.
    match goal with |- context [exec_all ?cbs ?q] =>
      destruct (exec_all_wss cbs q Hwss Hlive)
        as (H1 & H2 & H3 & H4 & H5 & new & H6 & H7) end.
    cbn [now timers wss_listeners server_listeners trace exited] in *.
    split; [split; [rewrite H4; constructor|apply H5, Hsrv]|].
    rewrite app_nil_r. repeat split; try assumption; [tauto|].
    exists new. split; [exact H6|]. intros te c Hin. destruct (H7 te c Hin).
  - unfold dispatch. rewrite Hlive. unfold emit_server_closed.
    match goal with |- context [exec_all ?cbs ?q] =>
      destruct (exec_all_server cbs q Hsrv Hlive)
        as (H1 & H2 & H3 & H4 & new & H6 & H7) end.
    cbn [now timers wss_listeners server_listeners trace exited] in *.
    split; [split; [rewrite H3; exact Hwss|rewrite H4; constructor]|].
    rewrite app_nil_r. repeat split; try assumption; [rewrite H4; tauto|].
    exists new. split; [exact H6|]. intros te c Hin.
    destruct (H7 te c Hin) as [-> Hne]. repeat split. exact Hne.
  - unfold dispatch. rewrite Hlive. unfold emit_connection.
    destruct (accepting p); unfold kinds;
      cbn [now timers wss_listeners server_listeners trace add_trace set_clients];
      rewrite app_nil_r;
      (split; [split; assumption|]); (repeat split; [tauto|]).
    + eexists. split; [reflexivity|]. intros te c Hin.
      destruct (no_exit_client _ _ _ _ _ Hin).
    + exists []. split; [symmetry; apply app_nil_r|intros te c []].
  - unfold dispatch. rewrite Hlive. unfold emit_client.
    destruct (clients p !! i) as [sock0|]; unfold kinds;
      cbn [now timers wss_listeners server_listeners trace add_trace set_clients];
      rewrite app_nil_r;
      (split; [split; assumption|]); (repeat split; [tauto|]).
    + eexists. split; [reflexivity|]. intros te c Hin.
      destruct (no_exit_client _ _ _ _ _ Hin).
    + exists []. split; [symmetry; apply app_nil_r|intros te c []].
Qed.

Lemma requested_at_more (done more : list (Z * event)) (t : Z) :
  requested_at done t -> requested_at (done ++ more) t.
Proof.
  intros (e & Hin & He). exists e. split; [|exact He].
  rewrite in_app_iff. left. exact Hin.
Qed.

Lemma kinds_advance (t : Z) (p : proc) : sane p -> kinds p -> kinds (advance t p).
Proof.
  intros Hs Hk. destruct (exited p) as [c|] eqn:Hlive.
  - rewrite (advance_exited t p c Hlive). exact Hk.
  - destruct (advance_cases t p Hs Hlive) as [[_ ->]|(d & _ & _ & _ & ->)];
      exact Hk.
Qed.

(** *** The forced exit comes 10 000 ms after a request *)

Lemma accounted_timers_advance (done : list (Z * event)) (t : Z) (p : proc) :
  sane p -> accounted_timers done p -> accounted_timers done (advance t p).
Proof.
  intros Hs [Htm Hex]. destruct (exited p) as [c|] eqn:Hlive.
  - rewrite (advance_exited t p c Hlive). split; assumption.
  - destruct (advance_cases t p Hs Hlive) as [[_ ->]|(d & Hin & _ & _ & ->)].
    + split; assumption.
    + destruct Hs as [Hsane _]. destruct (Hsane d _ Hin) as [_ Hlt].
      specialize (Hlt Hlive).
      split; cbn [timers trace].
      * intros d' cb' Hin'. apply (Htm d' cb'). apply (remove_timer_in _ _ _ _ Hin').
      * intros te Hin'. rewrite in_app_iff in Hin'.
        destruct Hin' as [Hin'|[Hin'|[Hin'|[]]]];
          [apply Hex, Hin'|discriminate Hin'|].
        injection Hin' as <-. replace (Z.max (now p) d) with d by lia.
        apply (Htm d _ Hin).
Qed.

Lemma accounted_timers_handle (done : list (Z * event)) (t : Z) (e : event)
      (p : proc) :
  sane p -> kinds p -> now p <= t -> accounted_timers done p ->
  accounted_timers (done ++ [(t, e)]) (handle (t, e) p).
Proof.
  intros Hs Hk Hnow Hacc. unfold handle. cbn [fst snd].
  pose proof (accounted_timers_advance done t p Hs Hacc) as [Htm Hex].
  destruct (advance_facts t p Hs) as (Hs1 & _ & Heq).
  pose proof (kinds_advance t p Hs Hk) as Hk1.
  destruct (exited (advance t p)) as [c|] eqn:Hlive.
  - rewrite (dispatch_exited e _ c Hlive).
    split; intros; apply requested_at_more; eauto.
  - specialize (Heq eq_refl).
    destruct (dispatch_shape e _ Hk1 Hlive) as (_ & _ & Htimers & _ & new & Htrace & Hnew).
    split.
    + intros d cb Hin. rewrite Htimers, in_app_iff in Hin.
      destruct Hin as [Hin|Hin]; [apply requested_at_more; eauto|].
      destruct (requests_shutdown e) eqn:He; [|destruct Hin].
      destruct Hin as [Hin|[]]. injection Hin as <- _.
      exists e. split; [|exact He]. rewrite in_app_iff. right. left.
      f_equal. lia.
    + intros te Hin. rewrite Htrace, in_app_iff in Hin.
      destruct Hin as [Hin|Hin]; [apply requested_at_more; eauto|].
      destruct (Hnew te 1 Hin) as [H _]. discriminate H.
Qed.

Lemma accounted_timers_run (rest done : list (Z * event)) (p : proc) :
  sane p -> kinds p -> accounted_timers done p ->
  Proc.chronological (now p) rest = true ->
  sane (Proc.run_timed rest p) /\
  accounted_timers (done ++ rest) (Proc.run_timed rest p).
Proof.
  revert done p; induction rest as [|[t e] rest IH]; intros done p Hs Hk Hacc Hch.
  - rewrite app_nil_r. split; assumption.
  - simpl in Hch. rewrite andb_true_iff, Z.leb_le in Hch. destruct Hch as [Hle Hch].
    rewrite proc_run_cons.
    change (done ++ (t, e) :: rest) with (done ++ [(t, e)] ++ rest).
    rewrite app_assoc.
    destruct (handle_facts (t, e) p Hs) as [Hs1 Hn1]. specialize (Hn1 Hle).
    apply IH.
    + exact Hs1.
    + unfold handle. cbn [fst snd].
      pose proof (kinds_advance t p Hs Hk) as Hk1.
      destruct (exited (advance t p)) as [c|] eqn:Hlive.
      * rewrite (dispatch_exited e _ c Hlive). exact Hk1.
      * apply (dispatch_shape e _ Hk1 Hlive).
    + apply accounted_timers_handle; assumption.
    + clear IH. revert Hch Hn1. cbn [fst].
      generalize (now (handle (t, e) p)). intros n Hch Hn.
      destruct rest as [|[t' e'] rest]; [reflexivity|].
      simpl in *. rewrite andb_true_iff, Z.leb_le in *. split; [lia|tauto].
Qed.

(** X14.  A forced exit never cuts the drain short: every exit with
    status 1 happens exactly 10 000 ms after a termination signal or an
    uncaught exception was received. *)
Theorem forced_exit_after_full_window (tr : list (Z * event)) (T te : Z) :
  Proc.chronological 0 tr = true ->
  In (te, Exit 1) (trace (Proc.observe T tr)) ->
  exists t e, In (t, e) tr /\ requests_shutdown e = true /\ te = t + 10000.
Proof.
  intros Hch Hin.
  assert (Hk : kinds boot) by (split; constructor).
  assert (Hacc : accounted_timers [] boot) by (split; [intros ? ? []|intros ? []]).
  destruct (accounted_timers_run tr [] boot sane_boot Hk Hacc Hch) as [Hs Hrun].
  destruct (accounted_timers_advance _ T _ Hs Hrun) as [_ Hex].
  destruct (Hex te Hin) as (e & He & Hreq).
  exists (te - 10000), e. repeat split; [exact He|exact Hreq|lia].
Qed.

Lemma forced_exit_after_full_window_witness :
  exists t e,
    In (t, e) [(100, Upgrade); (250, Signal SIGTERM); (900, Signal SIGINT)] /\
    requests_shutdown e = true /\ 10250 = t + 10000.
Proof.
  apply (forced_exit_after_full_window
           [(100, Upgrade); (250, Signal SIGTERM); (900, Signal SIGINT)]
           20000 10250).
  - reflexivity.
  - vm_compute. repeat first [left; reflexivity | right].
Defined.

(** *** The status of the exit *)

Lemma accounted_closes_more (done more : list (Z * event)) (p : proc) :
  accounted_closes done p -> accounted_closes (done ++ more) p.
Proof.
  intros [Hsrv Hex]. split.
  - intros H. destruct (Hsrv H) as [t Ht]. exists t. rewrite in_app_iff. tauto.
  - intros te c Hin. destruct (Hex te c Hin) as [(H0 & [t1 H1] & [t2 H2])|H1];
      [left|right; exact H1].
    split; [exact H0|]. split; [exists t1|exists t2]; rewrite in_app_iff; tauto.
Qed.

Lemma accounted_closes_advance (done : list (Z * event)) (t : Z) (p : proc) :
  sane p -> accounted_closes done p -> accounted_closes done (advance t p).
Proof.
  intros Hs [Hsrv Hex]. destruct (exited p) as [c|] eqn:Hlive.
  - rewrite (advance_exited t p c Hlive). split; assumption.
  - destruct (advance_cases t p Hs Hlive) as [[_ ->]|(d & _ & _ & _ & ->)].
    + split; assumption.
    + split; cbn [server_listeners trace]; [exact Hsrv|].
      intros te c Hin. rewrite in_app_iff in Hin.
      destruct Hin as [Hin|[Hin|[Hin|[]]]];
        [apply (Hex te c Hin)|discriminate Hin|].
      injection Hin as _ <-. right. reflexivity.
Qed.

Lemma accounted_closes_handle (done : list (Z * event)) (t : Z) (e : event)
      (p : proc) :
  sane p -> kinds p -> accounted_closes done p ->
  accounted_closes (done ++ [(t, e)]) (handle (t, e) p).
Proof.
  intros Hs Hk Hacc. unfold handle. cbn [fst snd].
  pose proof (accounted_closes_advance done t p Hs Hacc) as Hacc1.
  pose proof (kinds_advance t p Hs Hk) as Hk1.
  destruct (exited (advance t p)) as [c|] eqn:Hlive.
  - rewrite (dispatch_exited e _ c Hlive). apply accounted_closes_more, Hacc1.
  - destruct (dispatch_shape e _ Hk1 Hlive) as (_ & _ & _ & Hsrv & new & Htrace & Hnew).
    destruct (accounted_closes_more done [(t, e)] _ Hacc1) as [Hsrv1 Hex1].
    split.
    + intros H. destruct (Hsrv H) as [Hold | He]; [apply Hsrv1, Hold|subst e].
      exists t. rewrite in_app_iff. right. left. reflexivity.
    + intros te c Hin. rewrite Htrace, in_app_iff in Hin.
      destruct Hin as [Hin|Hin]; [apply (Hex1 te c Hin)|].
      destruct (Hnew te c Hin) as (H0 & He & Hne). subst c e. left.
      split; [reflexivity|]. split; [apply Hsrv1, Hne|].
      exists t. rewrite in_app_iff. right. left. reflexivity.
Qed.

Lemma accounted_closes_run (rest done : list (Z * event)) (p : proc) :
  sane p -> kinds p -> accounted_closes done p ->
  sane (Proc.run_timed rest p) /\
  accounted_closes (done ++ rest) (Proc.run_timed rest p).
Proof.
  revert done p; induction rest as [|[t e] rest IH]; intros done p Hs Hk Hacc.
  - rewrite app_nil_r. split; assumption.
  - rewrite proc_run_cons.
    change (done ++ (t, e) :: rest) with (done ++ [(t, e)] ++ rest).
    rewrite app_assoc. apply IH.
    + apply handle_facts, Hs.
    + unfold handle. cbn [fst snd].
      pose proof (kinds_advance t p Hs Hk) as Hk1.
      destruct (exited (advance t p)) as [c|] eqn:Hlive.
      * rewrite (dispatch_exited e _ c Hlive). exact Hk1.
      * apply (dispatch_shape e _ Hk1 Hlive).
    + apply accounted_closes_handle; assumption.
Qed.

(** X15.  The process exits with status 0 or 1 and no other; and it exits
    with status 0 only if both the WebSocket server and the HTTP server have
    reported their close. *)
Theorem exit_status (tr : list (Z * event)) (T c : Z) :
  exited (Proc.observe T tr) = Some c ->
  (c = 0 \/ c = 1) /\
  (c = 0 -> (exists t, In (t, WssClosed) tr) /\ (exists t, In (t, ServerClosed) tr)).
Proof.
  intros Hexit.
  assert (Hk : kinds boot) by (split; constructor).
  assert (Hacc : accounted_closes [] boot).
  { split; [intros H; exfalso; apply H; reflexivity|intros ? ? []]. }
  destruct (accounted_closes_run tr [] boot sane_boot Hk Hacc) as [Hs Hrun].
  destruct (accounted_closes_advance _ T _ Hs Hrun) as [_ Hex].
  destruct (advance_facts T _ Hs) as ([_ Hlog] & _ & _).
  fold (Proc.observe T tr) in Hlog, Hex. rewrite Hexit in Hlog.
  destruct Hlog as [_ Hin].
  destruct (Hex _ _ Hin) as [(H0 & Hw & Hh)|H1]; subst c.
  - split; [left; reflexivity|]. intros _. split; assumption.
  - split; [right; reflexivity|]. discriminate.
Qed.

Lemma exit_status_witness :
  (0 = 0 \/ 0 = 1) /\
  (0 = 0 ->
   (exists t, In (t, WssClosed) [(30, Signal SIGINT); (40, WssClosed); (50, ServerClosed)]) /\
   (exists t, In (t, ServerClosed) [(30, Signal SIGINT); (40, WssClosed); (50, ServerClosed)])).
Proof.
  apply (exit_status [(30, Signal SIGINT); (40, WssClosed); (50, ServerClosed)] 60 0).
  reflexivity.
Defined.

End Exits.
